(** * gcp-ips: the aggregation pipeline of [main.go]

    A shallow embedding of the functions of [main.go] that collect the
    addresses of the service projects of a shared VPC, merge them by IP,
    group them by subnet and write one sorted table per subnet.

    Conventions of the embedding.
    - A Go [string] is a [string]; the empty string is the zero value.
    - A pointer or slice that the code compares with [nil] is an [option];
      a slice the code only ranges over or indexes is a [list].  Pointers
      stored inside slices ([*compute.Address], [*compute.Instance],
      [*compute.NetworkInterface], [*projectResources]) are modelled by the
      values they point to.
    - [map[string]*AddressInfo] is a [gmap string AddressInfo]: every pointer
      stored in it comes from a fresh [&AddressInfo{...}], so no two keys
      alias and the in-place update of an entry is an [insert] at its key.
    - A run-time panic ("index out of range") is [None] in the option monad.
    - Calls of [log.Printf] are left out: they do not influence any value. *)

From Stdlib Require Import Ascii String List ZArith NArith Lia Permutation Sorted.
From Stdlib.Strings Require Import Byte.
From stdpp Require Import base option list strings gmap fin_maps sorting.

Local Open Scope string_scope.

(* [set_solver] clears hypotheses it has already consumed. *)
Set Warnings "-clear-no-such-hyp".

(** ** Data model *)

(** [type AddressInfo struct] *)
Record AddressInfo := mkAddressInfo {
  Project : string;
  IP : string;
  Status : string;
  Subnet : string;
  User : string
}.

(** The part of the [compute/v1] response types that [flatten] reads. *)
Module compute.

(** [compute.Address]: [Address], [Status], [Subnetwork], [Users]. *)
Record Address := mkAddress {
  addr_Address : string;
  addr_Status : string;
  addr_Subnetwork : string;
  addr_Users : option (list string)
}.

(** [compute.NetworkInterface]: [NetworkIP], [Subnetwork]. *)
Record NetworkInterface := mkNetworkInterface {
  NetworkIP : string;
  ni_Subnetwork : string
}.

(** [compute.Instance]: [Name], [NetworkInterfaces]. *)
Record Instance := mkInstance {
  Name : string;
  NetworkInterfaces : list NetworkInterface
}.

(** [compute.AddressesScopedList] and [compute.InstancesScopedList]. *)
Record AddressesScopedList := mkAddressesScopedList {
  Addresses : option (list Address)
}.

Record InstancesScopedList := mkInstancesScopedList {
  Instances : option (list Instance)
}.

(** [Items] is a Go map that the code only ranges over.  Go visits the
    entries of a map in an unspecified order, so [Items] is given as the
    list of its entries in the order the loop visits them. *)
Record AddressAggregatedList := mkAddressAggregatedList {
  addr_Items : list (string * AddressesScopedList)
}.

Record InstanceAggregatedList := mkInstanceAggregatedList {
  inst_Items : list (string * InstancesScopedList)
}.

End compute.

(** [type projectResources struct] *)
Record projectResources := mkProjectResources {
  res_Project : string;
  AddressList : option compute.AddressAggregatedList;
  InstanceList : option compute.InstanceAggregatedList
}.

(** ** Loops that can panic *)

(** [for _, x := range l { s = body(s, x) }] where the body may panic. *)
Fixpoint for_range {A S : Type} (body : S → A → option S) (l : list A) (s : S)
  : option S :=
  match l with
  | [] => Some s
  | x :: l' => s' ← body s x; for_range body l' s'
  end.

(** ** [insertAddressInfo] *)

(** The three assignments guarded by [existingInfo.X == ""]. *)
Definition merge_into (existingInfo addressInfo : AddressInfo) : AddressInfo :=
  let status := if decide (Status existingInfo = "")
                then Status addressInfo else Status existingInfo in
  let subnet := if decide (Subnet existingInfo = "")
                then Subnet addressInfo else Subnet existingInfo in
  let user := if decide (User existingInfo = "")
              then User addressInfo else User existingInfo in
  {| Project := Project existingInfo;
     IP := IP existingInfo;
     Status := status;
     Subnet := subnet;
     User := user |}.

Definition insertAddressInfo (addressInfoMap : gmap string AddressInfo)
    (addressInfo : AddressInfo) : gmap string AddressInfo :=
  let ip := IP addressInfo in
  match addressInfoMap !! ip with
  | Some existingInfo => <[ip := merge_into existingInfo addressInfo]> addressInfoMap
  | None => <[ip := addressInfo]> addressInfoMap
  end.

(** ** [getName] *)

(** [strings.Split(s, sep)] for a one-byte separator: the pieces of [s]
    between the occurrences of [sep]; never the empty slice. *)
Fixpoint strings_Split (s : string) (sep : ascii) : list string :=
  match s with
  | EmptyString => [EmptyString]
  | String c s' =>
      if Ascii.eqb c sep then EmptyString :: strings_Split s' sep
      else match strings_Split s' sep with
           | [] => [String c EmptyString]
           | piece :: pieces => String c piece :: pieces
           end
  end.

(** [split[len(split)-1]], with the bounds check of the index expression. *)
Definition getName (selfLink : string) : option string :=
  let split := strings_Split selfLink "/" in
  split !! (length split - 1)%nat.

(** ** [flatten] *)

(** The record built from one [compute.Address] of project [project]. *)
Definition address_record (project : string) (address : compute.Address)
  : option AddressInfo :=
  user ← match compute.addr_Users address with
          | Some users => first ← users !! 0%nat; getName first
          | None => Some ""
          end;
  subnet ← getName (compute.addr_Subnetwork address);
  Some {| Project := project;
          IP := compute.addr_Address address;
          Status := compute.addr_Status address;
          Subnet := subnet;
          User := user |}.

(** The record built from one [compute.Instance] of project [project]. *)
Definition instance_record (project : string) (instance : compute.Instance)
  : option AddressInfo :=
  ni ← compute.NetworkInterfaces instance !! 0%nat;
  subnet ← getName (compute.ni_Subnetwork ni);
  Some {| Project := project;
          IP := compute.NetworkIP ni;
          Status := "";
          Subnet := subnet;
          User := compute.Name instance |}.

(** The loop over [p.AddressList.Items]. *)
Definition flatten_addresses (project : string)
    (items : list (string * compute.AddressesScopedList))
    (addressInfoMap : gmap string AddressInfo) : option (gmap string AddressInfo) :=
  for_range (λ m entry,
    match compute.Addresses entry.2 with
    | Some addresses =>
        for_range (λ m' address,
          info ← address_record project address;
          Some (insertAddressInfo m' info)) addresses m
    | None => Some m
    end) items addressInfoMap.

(** The loop over [p.InstanceList.Items]. *)
Definition flatten_instances (project : string)
    (items : list (string * compute.InstancesScopedList))
    (addressInfoMap : gmap string AddressInfo) : option (gmap string AddressInfo) :=
  for_range (λ m entry,
    match compute.Instances entry.2 with
    | Some instances =>
        for_range (λ m' instance,
          info ← instance_record project instance;
          Some (insertAddressInfo m' info)) instances m
    | None => Some m
    end) items addressInfoMap.

(** The body of the loop over [projectResourceList]. *)
Definition flatten_project (addressInfoMap : gmap string AddressInfo)
    (p : projectResources) : option (gmap string AddressInfo) :=
  m ← match AddressList p with
       | None => Some addressInfoMap
       | Some l => flatten_addresses (res_Project p) (compute.addr_Items l) addressInfoMap
       end;
  match InstanceList p with
  | None => Some m
  | Some l => flatten_instances (res_Project p) (compute.inst_Items l) m
  end.

Definition flatten (projectResourceList : list projectResources)
  : option (gmap string AddressInfo) :=
  for_range flatten_project projectResourceList ∅.

(** ** Iteration order of a Go map *)

(** [for k, v := range m] visits every entry of [m] once, in an order the
    run-time chooses.  The order is an oracle of the model: any enumeration
    of the entries. *)
Class MapOrder := {
  range_map : ∀ {V : Type}, gmap string V → list (string * V);
  range_map_perm : ∀ (V : Type) (m : gmap string V), range_map m ≡ₚ map_to_list m
}.

(** One admissible order: the one of [map_to_list]. *)
Definition canonical_order : MapOrder :=
  {| range_map := λ V (m : gmap string V), map_to_list m;
     range_map_perm := λ V m, reflexivity (map_to_list m) |}.

(** ** [extractFields] *)

(** [addressInfoBySubnet[subnet] = append(addressInfoBySubnet[subnet], addressInfo)];
    a missing key reads as the nil slice. *)
Definition append_by_subnet (addressInfoBySubnet : gmap string (list AddressInfo))
    (addressInfo : AddressInfo) : gmap string (list AddressInfo) :=
  let subnet := Subnet addressInfo in
  <[subnet := (default [] (addressInfoBySubnet !! subnet) ++ [addressInfo])%list]>
    addressInfoBySubnet.

(** The grouping loop of [extractFields], on the map [flatten] returned. *)
Definition group_by_subnet `{MapOrder} (addressInfoByIP : gmap string AddressInfo)
  : gmap string (list AddressInfo) :=
  foldl append_by_subnet ∅ (range_map addressInfoByIP).*2.

Definition extractFields `{MapOrder} (projectResourceList : list projectResources)
  : option (gmap string (list AddressInfo)) :=
  addressInfoByIP ← flatten projectResourceList;
  Some (group_by_subnet addressInfoByIP).

(** ** Sorting by parsed IP *)

(** [bytes.Compare]: the lexicographic order of two byte slices as -1, 0, 1.
    A nil slice compares like the empty one. *)
Fixpoint bytes_Compare (a b : list byte) : Z :=
  match a, b with
  | [], [] => 0
  | [], _ :: _ => -1
  | _ :: _, [] => 1
  | x :: a', y :: b' =>
      match N.compare (Byte.to_N x) (Byte.to_N y) with
      | Lt => -1
      | Gt => 1
      | Eq => bytes_Compare a' b'
      end
  end%Z.

(** The closure handed to [sort.Slice], as a function of the two elements
    at the indices it is called with.  [ParseIP] is [net.ParseIP], with the
    nil result for an invalid address as the empty list. *)
Definition less (ParseIP : string → list byte) (x y : AddressInfo) : bool :=
  let a := ParseIP (IP x) in
  let b := ParseIP (IP y) in
  bool_decide (bytes_Compare a b < 0)%Z.

(** [sort.Slice(l, less)]: a comparison sort of [l] that only consults
    [less]; the library promises no order among elements that [less] does
    not separate.  Modelled by insertion from the right. *)
Fixpoint sort_insert {A : Type} (less : A → A → bool) (x : A) (l : list A) : list A :=
  match l with
  | [] => [x]
  | y :: l' => if less y x then y :: sort_insert less x l' else x :: l
  end.

Definition sort_Slice {A : Type} (less : A → A → bool) (l : list A) : list A :=
  foldr (sort_insert less) [] l.

(** ** The dotted-decimal branch of [net.ParseIP] *)

Definition digit_value (c : ascii) : option N :=
  let n := N_of_ascii c in
  if bool_decide (48 ≤ n ∧ n ≤ 57)%N then Some (n - 48)%N else None.

(** One octet: at least one digit, no leading zero, value at most 255. *)
Fixpoint parse_digits (s : string) (acc : N) : option N :=
  match s with
  | EmptyString => Some acc
  | String c s' =>
      d ← digit_value c;
      let v := (acc * 10 + d)%N in
      if bool_decide (255 < v)%N then None else parse_digits s' v
  end.

Definition parse_octet (s : string) : option byte :=
  match s with
  | EmptyString => None
  | String "0" (String _ _) => None
  | _ => n ← parse_digits s 0%N; Byte.of_N n
  end.

(** [v4InV6Prefix]: ten zero bytes followed by 0xff 0xff. *)
Definition v4InV6Prefix : list byte :=
  (replicate 10 "000"%byte ++ ["255"%byte; "255"%byte])%list.

(** An IPv4 address in dotted-decimal form parses to its 16-byte form.
    This is the IPv4 branch only: it answers nil on every other text, the
    IPv6 addresses that [net.ParseIP] accepts included.  As in Go 1.17 and
    later, an octet written with a leading zero is rejected. *)
Definition parseIPv4 (s : string) : list byte :=
  match mapM parse_octet (strings_Split s ".") with
  | Some [a; b; c; d] => (v4InV6Prefix ++ [a; b; c; d])%list
  | _ => []
  end.

(** ** Outcomes of a run *)

(** A computation returns, or ends the process through [log.Fatal]
    ([os.Exit(1)]), or panics. *)
Inductive run (A : Type) : Type :=
  | Return (a : A)
  | Exit (code : Z)
  | Panic.
Arguments Return {A} a.
Arguments Exit {A} code.
Arguments Panic {A}.

Definition log_Fatal {A : Type} : run A := Exit 1.

(** ** [writeToFile] and [writeAll] *)

(** What a run leaves in a file: the heading line and the table. *)
Record Content := mkContent {
  heading : string;
  columns : list string;
  table : list (list string)
}.

(** The failures of the file system, by file name. *)
Record FileSystem := mkFileSystem {
  Create_fails : string → bool;
  WriteString_fails : string → bool
}.

Definition newline : string := String (ascii_of_nat 10) EmptyString.

Definition row (addressInfo : AddressInfo) : list string :=
  [IP addressInfo; Project addressInfo; Status addressInfo; User addressInfo].

(** The files on disk are a map from name to content.  [os.Create] leaves an
    empty file; [table.Render] reports no error to its caller.  The deferred
    [f.Close()] changes no content, and [log.Fatal] does not run it. *)
Definition writeToFile (ParseIP : string → list byte) (fs : FileSystem)
    (subnet : string) (addressInfoList : list AddressInfo)
    (disk : gmap string Content) : gmap string Content * run unit :=
  let path := subnet ++ ".md" in
  if Create_fails fs path then (disk, log_Fatal)
  else
    let disk := <[path := mkContent "" [] []]> disk in
    if WriteString_fails fs path then (disk, log_Fatal)
    else
      let sorted := sort_Slice (less ParseIP) addressInfoList in
      let data := row <$> sorted in
      (<[path := mkContent ("# Reserved IPs for " ++ subnet ++ newline)
                           ["IP"; "GCP Project"; "Status"; "User"] data]> disk,
       Return tt).

(** The loop of [writeAll] over the entries in the order they are visited. *)
Fixpoint writeAll_loop (ParseIP : string → list byte) (fs : FileSystem)
    (entries : list (string * list AddressInfo)) (disk : gmap string Content)
  : gmap string Content * run unit :=
  match entries with
  | [] => (disk, Return tt)
  | (subnet, addressInfoList) :: entries' =>
      if decide (subnet ≠ "") then
        match writeToFile ParseIP fs subnet addressInfoList disk with
        | (disk', Return _) => writeAll_loop ParseIP fs entries' disk'
        | (disk', Exit code) => (disk', Exit code)
        | (disk', Panic) => (disk', Panic)
        end
      else writeAll_loop ParseIP fs entries' disk
  end.

Definition writeAll `{MapOrder} (ParseIP : string → list byte) (fs : FileSystem)
    (addressesBySubnet : gmap string (list AddressInfo))
    (disk : gmap string Content) : gmap string Content * run unit :=
  writeAll_loop ParseIP fs (range_map addressesBySubnet) disk.

(** ** The Compute API as seen by the program *)

(** The result of a [.Do()] call: the response, or an error together with
    a nil response. *)
Inductive response (A : Type) : Type :=
  | Ok (a : A)
  | Err (e : string).
Arguments Ok {A} a.
Arguments Err {A} e.

(** [compute.XpnResourceId] *)
Record XpnResourceId := mkXpnResourceId { Id : string }.

(** [compute.ProjectsGetXpnResources] *)
Record ProjectsGetXpnResources := mkProjectsGetXpnResources {
  Resources : list XpnResourceId
}.

(** What the three calls made through [*compute.Service] answer. *)
Record Service := mkService {
  Projects_GetXpnResources : string → response ProjectsGetXpnResources;
  Addresses_AggregatedList : string → response compute.AddressAggregatedList;
  Instances_AggregatedList : string → response compute.InstanceAggregatedList
}.

(** The pointer half of a [(pointer, error)] pair. *)
Definition pointer_of {A : Type} (r : response A) : option A :=
  match r with
  | Ok a => Some a
  | Err _ => None
  end.

(** ** [getServiceProjects], [getResources], [getAllResources] *)

Definition getServiceProjects (hostProject : string) (service : Service)
  : response ProjectsGetXpnResources :=
  Projects_GetXpnResources service hostProject.

Definition getResources (project : string) (service : Service) : projectResources :=
  let addressAggregatedList := pointer_of (Addresses_AggregatedList service project) in
  let instanceAggregatedList := pointer_of (Instances_AggregatedList service project) in
  {| res_Project := project;
     AddressList := addressAggregatedList;
     InstanceList := instanceAggregatedList |}.

(** The fan-in over the channel [ch].  Every goroutine sends one value; the
    receiving loop takes them in the order the scheduler lets them through.
    The schedule is an oracle: at each receive, its head picks one of the
    goroutines that have not been received from yet.  [fuel] bounds the
    number of receives and is the number of goroutines. *)
Fixpoint receive_all {A : Type} (fuel : nat) (schedule : list nat) (pending : list A)
  : list A :=
  match fuel with
  | O => []
  | S fuel' =>
      let i := (hd 0 schedule mod length pending)%nat in
      match pending !! i with
      | Some s => s :: receive_all fuel' (tl schedule) (delete i pending)
      | None => []
      end
  end.

(** [if s != nil { output = append(output, s) }] over the received values. *)
Definition gather (received : list (option projectResources)) : list projectResources :=
  omap id received.

Definition getAllResources (hostProject : string) (service : Service)
    (schedule : list nat) : run (list projectResources) :=
  match getServiceProjects hostProject service with
  | Err _ => log_Fatal
  | Ok res =>
      let sent := (λ resource, Some (getResources (Id resource) service))
                    <$> Resources res in
      Return (gather (receive_all (length sent) schedule sent))
  end.

(** ** [main] *)

(** Everything outside the program that a run depends on. *)
Record World := mkWorld {
  Args : list string;
  client : response Service;
  schedule : list nat;
  order : MapOrder;
  ParseIP : string → list byte;
  files : FileSystem
}.

(** [initClient]: either error ends the run. *)
Definition initClient (w : World) : run Service :=
  match client w with
  | Err _ => log_Fatal
  | Ok computeService => Return computeService
  end.

(** A run from an empty directory: the files written and how the run ended. *)
Definition main (w : World) : gmap string Content * run unit :=
  if bool_decide (length (Args w) < 2)%nat then (∅, log_Fatal)
  else
    match Args w !! 1%nat with
    | None => (∅, Panic)
    | Some hostProject =>
        match initClient w with
        | Exit code => (∅, Exit code)
        | Panic => (∅, Panic)
        | Return computeService =>
            match getAllResources hostProject computeService (schedule w) with
            | Exit code => (∅, Exit code)
            | Panic => (∅, Panic)
            | Return resources =>
                match @extractFields (order w) resources with
                | None => (∅, Panic)
                | Some addressInfoBySubnet =>
                    @writeAll (order w) (ParseIP w) (files w) addressInfoBySubnet ∅
                end
            end
        end
    end.

(** * Vocabulary of the properties *)

(** Every entry is stored under its own IP. *)
Definition keyed_by_ip (m : gmap string AddressInfo) : Prop :=
  ∀ k r, m !! k = Some r → IP r = k.

(** [address.Users[0]] is in range, where the code evaluates it. *)
Definition users_in_range (address : compute.Address) : bool :=
  match compute.addr_Users address with
  | Some [] => false
  | _ => true
  end.

(** [instance.NetworkInterfaces[0]] is in range. *)
Definition interface_in_range (instance : compute.Instance) : bool :=
  match compute.NetworkInterfaces instance with
  | [] => false
  | _ => true
  end.

Definition indexes_in_range (p : projectResources) : bool :=
  match AddressList p with
  | None => true
  | Some l =>
      forallb (λ entry : string * compute.AddressesScopedList,
                 match compute.Addresses entry.2 with
                 | None => true
                 | Some addresses => forallb users_in_range addresses
                 end) (compute.addr_Items l)
  end
  &&
  match InstanceList p with
  | None => true
  | Some l =>
      forallb (λ entry : string * compute.InstancesScopedList,
                 match compute.Instances entry.2 with
                 | None => true
                 | Some instances => forallb interface_in_range instances
                 end) (compute.inst_Items l)
  end.

(** The IPs that the records of a snapshot refer to. *)
Definition scoped_address_ips (items : list (string * compute.AddressesScopedList))
  : list string :=
  entry ← items;
  match compute.Addresses entry.2 with
  | None => []
  | Some addresses => compute.addr_Address <$> addresses
  end.

Definition first_interface_ip (instance : compute.Instance) : list string :=
  match compute.NetworkInterfaces instance !! 0%nat with
  | None => []
  | Some ni => [compute.NetworkIP ni]
  end.

Definition scoped_instance_ips (items : list (string * compute.InstancesScopedList))
  : list string :=
  entry ← items;
  match compute.Instances entry.2 with
  | None => []
  | Some instances => instances ≫= first_interface_ip
  end.

Definition address_ips (p : projectResources) : list string :=
  match AddressList p with
  | None => []
  | Some l => scoped_address_ips (compute.addr_Items l)
  end.

Definition instance_ips (p : projectResources) : list string :=
  match InstanceList p with
  | None => []
  | Some l => scoped_instance_ips (compute.inst_Items l)
  end.

Definition referenced_ips (ps : list projectResources) : list string :=
  p ← ps; (address_ips p ++ instance_ips p)%list.

(** The records of a map, in the order of [map_to_list]. *)
Definition records (m : gmap string AddressInfo) : list AddressInfo :=
  (map_to_list m).*2.

(** All five fields of the record are set. *)
Definition fully_populated (e : AddressInfo) : Prop :=
  Project e ≠ "" ∧ IP e ≠ "" ∧ Status e ≠ "" ∧ Subnet e ≠ "" ∧ User e ≠ "".

(** Every field of the candidate other than its IP is empty. *)
Definition only_ip (c : AddressInfo) : Prop :=
  Project c = "" ∧ Status c = "" ∧ Subnet c = "" ∧ User c = "".

(** The entry [r] has absorbed the candidate [c]: it is the entry of the
    candidate's IP, and whatever status, subnet or user the candidate
    carries, the entry has one. *)
Definition absorbed (c r : AddressInfo) : Prop :=
  IP r = IP c
  ∧ (Status c ≠ "" → Status r ≠ "")
  ∧ (Subnet c ≠ "" → Subnet r ≠ "")
  ∧ (User c ≠ "" → User r ≠ "").

Definition holds (c : AddressInfo) (m : gmap string AddressInfo) : Prop :=
  keyed_by_ip m ∧ ∃ r, m !! IP c = Some r ∧ absorbed c r.

(** The order of two records by the bytes of their parsed IPs. *)
Definition ip_le (ParseIP : string → list byte) (x y : AddressInfo) : Prop :=
  (bytes_Compare (ParseIP (IP x)) (ParseIP (IP y)) ≤ 0)%Z.

(** The file of a subnet cannot be created, or its heading cannot be written. *)
Definition sink_fails (fs : FileSystem) (subnet : string) : bool :=
  Create_fails fs (subnet ++ ".md") || WriteString_fails fs (subnet ++ ".md").

(** Every file is the report of a non-empty subnet, and every row of its
    table is the row of one of the records [allowed]. *)
Definition reports_only (allowed : list AddressInfo) (disk : gmap string Content)
  : Prop :=
  ∀ name content, disk !! name = Some content →
    (∃ subnet, subnet ≠ "" ∧ name = subnet ++ ".md")
    ∧ ∀ x, x ∈ table content → ∃ r, r ∈ allowed ∧ x = row r.

(** The records filed under the keys other than the empty one. *)
Definition filed (g : gmap string (list AddressInfo)) : list AddressInfo :=
  mjoin (filter (λ entry : string * list AddressInfo, entry.1 ≠ "")
           (map_to_list g)).*2.

(** The records in the order the grouping loop visits them. *)
Definition visited `{MapOrder} (m : gmap string AddressInfo) : list AddressInfo :=
  (range_map m).*2.

(** * Scenarios *)

(** [svc-a]: one reserved address 10.0.0.5, status RESERVED, subnet sub1,
    no user, and an instance list without instances. *)
Definition svc_a : projectResources :=
  {| res_Project := "svc-a";
     AddressList := Some (compute.mkAddressAggregatedList
       [("regions/us-east1",
         compute.mkAddressesScopedList
           (Some [compute.mkAddress "10.0.0.5" "RESERVED"
                    "projects/H/regions/us-east1/subnetworks/sub1" None]))]);
     InstanceList := Some (compute.mkInstanceAggregatedList
       [("zones/us-east1-b", compute.mkInstancesScopedList None)]) |}.

(** [svc-b]: one instance vm1 at 10.0.0.5 in sub1, and no address. *)
Definition svc_b : projectResources :=
  {| res_Project := "svc-b";
     AddressList := Some (compute.mkAddressAggregatedList
       [("regions/us-east1", compute.mkAddressesScopedList None)]);
     InstanceList := Some (compute.mkInstanceAggregatedList
       [("zones/us-east1-b",
         compute.mkInstancesScopedList
           (Some [compute.mkInstance "vm1"
                    [compute.mkNetworkInterface "10.0.0.5"
                       "projects/H/regions/us-east1/subnetworks/sub1"]]))]) |}.

(** The same two snapshots with the subnet given by its bare name. *)
Definition svc_a_bare : projectResources :=
  {| res_Project := "svc-a";
     AddressList := Some (compute.mkAddressAggregatedList
       [("regions/us-east1",
         compute.mkAddressesScopedList
           (Some [compute.mkAddress "10.0.0.5" "RESERVED" "sub1" None]))]);
     InstanceList := None |}.

Definition svc_b_bare : projectResources :=
  {| res_Project := "svc-b";
     AddressList := None;
     InstanceList := Some (compute.mkInstanceAggregatedList
       [("zones/us-east1-b",
         compute.mkInstancesScopedList
           (Some [compute.mkInstance "vm1"
                    [compute.mkNetworkInterface "10.0.0.5" "sub1"]]))]) |}.

(** [svc_a_bare] under the empty project identifier. *)
Definition unnamed_project : projectResources :=
  {| res_Project := "";
     AddressList := AddressList svc_a_bare;
     InstanceList := None |}.

(** A snapshot with an instance that has no network interface, and one with
    an address whose users list is present and empty. *)
Definition no_interface : projectResources :=
  {| res_Project := "svc-a";
     AddressList := None;
     InstanceList := Some (compute.mkInstanceAggregatedList
       [("zones/us-east1-b",
         compute.mkInstancesScopedList (Some [compute.mkInstance "vm1" []]))]) |}.

Definition empty_users : projectResources :=
  {| res_Project := "svc-a";
     AddressList := Some (compute.mkAddressAggregatedList
       [("regions/us-east1",
         compute.mkAddressesScopedList
           (Some [compute.mkAddress "10.0.0.5" "RESERVED" "sub1" (Some [])]))]);
     InstanceList := None |}.

(** A snapshot with an external address, which has no subnetwork, and an
    internal one. *)
Definition svc_c : projectResources :=
  {| res_Project := "svc-c";
     AddressList := Some (compute.mkAddressAggregatedList
       [("regions/us-east1",
         compute.mkAddressesScopedList
           (Some [compute.mkAddress "34.73.1.2" "IN_USE" ""
                    (Some ["projects/svc-c/zones/us-east1-b/instances/vm9"]);
                  compute.mkAddress "10.0.0.7" "RESERVED"
                    "projects/H/regions/us-east1/subnetworks/sub1" None]))]);
     InstanceList := None |}.

Definition svc_c_merged : gmap string AddressInfo :=
  {[ "34.73.1.2" := mkAddressInfo "svc-c" "34.73.1.2" "IN_USE" "" "vm9";
     "10.0.0.7" := mkAddressInfo "svc-c" "10.0.0.7" "RESERVED" "sub1" "" ]}.

(** A service that knows the addresses of every project and fails on every
    instance query. *)
Definition instances_down : Service :=
  {| Projects_GetXpnResources := λ _,
       Ok (mkProjectsGetXpnResources [mkXpnResourceId "svc-a"]);
     Addresses_AggregatedList := λ _,
       Ok (compute.mkAddressAggregatedList
             [("regions/us-east1",
               compute.mkAddressesScopedList
                 (Some [compute.mkAddress "10.0.0.5" "RESERVED" "sub1" None]))]);
     Instances_AggregatedList := λ _, Err "googleapi: Error 403" |}.


(** A file system on which nothing fails. *)
Definition reliable : FileSystem :=
  {| Create_fails := λ _, false; WriteString_fails := λ _, false |}.


(** * Vocabulary of the further properties *)

(** The separator occurs in the string. *)
Fixpoint has_sep (sep : ascii) (s : string) : bool :=
  match s with
  | EmptyString => false
  | String c s' => Ascii.eqb c sep || has_sep sep s'
  end.

(** The record [r] is the record [e] after later insertions: same IP and
    project, and every status, subnet and user that [e] has. *)
Definition extends (e r : AddressInfo) : Prop :=
  IP r = IP e
  ∧ Project r = Project e
  ∧ (Status e ≠ "" → Status r = Status e)
  ∧ (Subnet e ≠ "" → Subnet r = Subnet e)
  ∧ (User e ≠ "" → User r = User e).

(** The addresses and the instances of a snapshot in the order the loops of
    [flatten] visit them. *)
Definition scoped_addresses (items : list (string * compute.AddressesScopedList))
  : list compute.Address :=
  entry ← items; default [] (compute.Addresses entry.2).

Definition scoped_instances (items : list (string * compute.InstancesScopedList))
  : list compute.Instance :=
  entry ← items; default [] (compute.Instances entry.2).

(** The records [flatten] builds for a snapshot, addresses first; [None]
    when one of them cannot be built. *)
Definition project_candidates (p : projectResources) : option (list AddressInfo) :=
  from_addresses ←
    match AddressList p with
    | None => Some []
    | Some l => mapM (address_record (res_Project p))
                     (scoped_addresses (compute.addr_Items l))
    end;
  from_instances ←
    match InstanceList p with
    | None => Some []
    | Some l => mapM (instance_record (res_Project p))
                     (scoped_instances (compute.inst_Items l))
    end;
  Some (from_addresses ++ from_instances)%list.

Definition candidates (ps : list projectResources) : option (list AddressInfo) :=
  mjoin <$> mapM project_candidates ps.

(** The content [writeToFile] leaves in the file of a subnet when nothing
    fails. *)
Definition report (ParseIP : string → list byte) (subnet : string)
    (addressInfoList : list AddressInfo) : Content :=
  mkContent ("# Reserved IPs for " ++ subnet ++ newline)
            ["IP"; "GCP Project"; "Status"; "User"]
            (row <$> sort_Slice (less ParseIP) addressInfoList).

(** The records of all the groups, the one of the empty key included. *)
Definition grouped (g : gmap string (list AddressInfo)) : list AddressInfo :=
  mjoin (map_to_list g).*2.

(** The option of a list up to the order of its elements. *)
Definition same_up_to_order {A : Type} (o o' : option (list A)) : Prop :=
  match o, o' with
  | Some l, Some l' => l ≡ₚ l'
  | None, None => True
  | _, _ => False
  end.

(** What one iteration of [writeAll] does to the files when nothing fails. *)
Definition write_step (ParseIP : string → list byte) (disk : gmap string Content)
    (entry : string * list AddressInfo) : gmap string Content :=
  if decide (entry.1 ≠ "")
  then <[entry.1 ++ ".md" := report ParseIP entry.1 entry.2]> disk
  else disk.

(** A service that lists one project and fails on both of its queries. *)
Definition queries_down : Service :=
  {| Projects_GetXpnResources := λ _,
       Ok (mkProjectsGetXpnResources [mkXpnResourceId "svc-a"]);
     Addresses_AggregatedList := λ _, Err "googleapi: Error 403";
     Instances_AggregatedList := λ _, Err "googleapi: Error 403" |}.

(** Another admissible order of iteration: the reverse of [map_to_list]. *)
Definition reverse_order : MapOrder :=
  {| range_map := λ V (m : gmap string V), reverse (map_to_list m);
     range_map_perm := λ V m, reverse_Permutation (map_to_list m) |}.

(** * Properties *)

(** ** The merge rule of [insertAddressInfo] *)

Section merge_rule.
Implicit Types (m : gmap string AddressInfo) (c e r : AddressInfo).

(** The entry found at the key of a candidate after its insertion. *)
Lemma insertAddressInfo_lookup m c :
  insertAddressInfo m c !! IP c
  = Some (match m !! IP c with
          | Some e => merge_into e c
          | None => c
          end).
Proof.
  unfold insertAddressInfo. destruct (m !! IP c); apply lookup_insert_eq.
Qed.

(** The other keys are left alone. *)
Lemma insertAddressInfo_lookup_ne m c k :
  k ≠ IP c → insertAddressInfo m c !! k = m !! k.
Proof.
  intros Hk. unfold insertAddressInfo.
  destruct (m !! IP c); by rewrite lookup_insert_ne.
Qed.

Lemma insertAddressInfo_dom m c :
  dom (insertAddressInfo m c) = {[IP c]} ∪ dom m.
Proof.
  unfold insertAddressInfo. destruct (m !! IP c); apply dom_insert_L.
Qed.

(** Merging a candidate whose status, subnet and user are empty gives back
    the existing entry. *)
Lemma merge_into_empty e c :
  Status c = "" → Subnet c = "" → User c = "" → merge_into e c = e.
Proof.
  intros Hs Hn Hu. destruct e as [p i s n u]. unfold merge_into. simpl.
  rewrite Hs, Hn, Hu. by repeat case_decide; subst.
Qed.

(** Merging into an entry whose status, subnet and user are all set gives
    back the entry, whatever the candidate. *)
Lemma merge_into_full e c :
  Status e ≠ "" → Subnet e ≠ "" → User e ≠ "" → merge_into e c = e.
Proof.
  intros Hs Hn Hu. destruct e as [p i s n u]. unfold merge_into. simpl in *.
  by repeat case_decide.
Qed.
End merge_rule.

Lemma keyed_by_ip_empty : keyed_by_ip ∅.
Proof. intros k r. by rewrite lookup_empty. Qed.

Lemma keyed_by_ip_insert m c :
  keyed_by_ip m → keyed_by_ip (insertAddressInfo m c).
Proof.
  intros Hm k r. destruct (decide (k = IP c)) as [->|Hk].
  - rewrite insertAddressInfo_lookup. intros [= <-].
    destruct (m !! IP c) as [e|] eqn:He; [|done].
    simpl. by apply Hm.
  - rewrite insertAddressInfo_lookup_ne by done. apply Hm.
Qed.

(** ** Loops *)

Section loops.
Context {A S : Type} (body : S → A → option S).

(** A property that every iteration keeps holds at the end. *)
Lemma for_range_preserves (P : S → Prop) l s s' :
  (∀ s x s', P s → body s x = Some s' → P s') →
  P s → for_range body l s = Some s' → P s'.
Proof.
  intros Hstep. revert s. induction l as [|x l IH]; intros s Hs; simpl.
  - by intros [= <-].
  - destruct (body s x) as [s1|] eqn:Hb; simpl; [|done]. eauto.
Qed.

End loops.

(** ** [getName] never panics *)

Lemma strings_Split_length s sep : (0 < length (strings_Split s sep))%nat.
Proof.
  induction s as [|c s IH]; simpl; [lia|].
  destruct (Ascii.eqb c sep); simpl; [lia|].
  destruct (strings_Split s sep); simpl; lia.
Qed.

Lemma getName_total selfLink : is_Some (getName selfLink).
Proof.
  unfold getName. apply lookup_lt_is_Some.
  pose proof (strings_Split_length selfLink "/"). lia.
Qed.

(** ** What the two record builders return *)

Lemma address_record_is_Some project address :
  is_Some (address_record project address) ↔ users_in_range address = true.
Proof.
  unfold address_record, users_in_range.
  destruct (getName_total (compute.addr_Subnetwork address)) as [n ->].
  destruct (compute.addr_Users address) as [[|u us]|]; simpl.
  - split; [by intros [? ?]|done].
  - destruct (getName_total u) as [n' ->]. simpl. split; [done|by eexists].
  - split; [done|by eexists].
Qed.

Lemma instance_record_is_Some project instance :
  is_Some (instance_record project instance) ↔ interface_in_range instance = true.
Proof.
  unfold instance_record, interface_in_range.
  destruct (compute.NetworkInterfaces instance) as [|ni nis]; simpl.
  - split; [by intros [? ?]|done].
  - destruct (getName_total (compute.ni_Subnetwork ni)) as [n ->]. simpl.
    split; [done|by eexists].
Qed.

Lemma address_record_IP project address c :
  address_record project address = Some c →
  IP c = compute.addr_Address address ∧ Project c = project
  ∧ Status c = compute.addr_Status address.
Proof.
  unfold address_record. intros H.
  destruct (match compute.addr_Users address with
            | Some users => _ | None => _ end) as [u|]; simpl in H; [|done].
  destruct (getName (compute.addr_Subnetwork address)); simpl in H; [|done].
  by injection H as <-.
Qed.

Lemma instance_record_IP project instance c :
  instance_record project instance = Some c →
  ∃ ni, compute.NetworkInterfaces instance !! 0%nat = Some ni
        ∧ IP c = compute.NetworkIP ni ∧ Project c = project
        ∧ Status c = "" ∧ User c = compute.Name instance.
Proof.
  unfold instance_record. intros H.
  destruct (compute.NetworkInterfaces instance !! 0%nat) as [ni|]; simpl in H; [|done].
  destruct (getName (compute.ni_Subnetwork ni)); simpl in H; [|done].
  exists ni. by injection H as <-.
Qed.

(** ** Properties that every insertion keeps *)

Section preserved.
Variable P : gmap string AddressInfo → Prop.
Hypothesis P_insert : ∀ m c, P m → P (insertAddressInfo m c).

Lemma flatten_addresses_preserves project items m m' :
  P m → flatten_addresses project items m = Some m' → P m'.
Proof.
  unfold flatten_addresses. apply for_range_preserves.
  intros m1 entry m2 Hm1. destruct (compute.Addresses entry.2); [|by intros [= <-]].
  revert Hm1. apply for_range_preserves. intros m3 a m4 Hm3.
  destruct (address_record project a); simpl; [|done]. intros [= <-]. by apply P_insert.
Qed.

Lemma flatten_instances_preserves project items m m' :
  P m → flatten_instances project items m = Some m' → P m'.
Proof.
  unfold flatten_instances. apply for_range_preserves.
  intros m1 entry m2 Hm1. destruct (compute.Instances entry.2); [|by intros [= <-]].
  revert Hm1. apply for_range_preserves. intros m3 a m4 Hm3.
  destruct (instance_record project a); simpl; [|done]. intros [= <-]. by apply P_insert.
Qed.

Lemma flatten_project_preserves m p m' :
  P m → flatten_project m p = Some m' → P m'.
Proof.
  unfold flatten_project. intros Hm H.
  destruct (match AddressList p with None => _ | Some l => _ end) as [m1|] eqn:H1;
    simpl in H; [|done].
  assert (P m1) as Hm1.
  { destruct (AddressList p); [|by injection H1 as <-].
    by eapply flatten_addresses_preserves. }
  destruct (InstanceList p); [|by injection H as <-].
  by eapply flatten_instances_preserves.
Qed.

Lemma flatten_loop_preserves ps m m' :
  P m → for_range flatten_project ps m = Some m' → P m'.
Proof. apply for_range_preserves. intros ??? ?. by apply flatten_project_preserves. Qed.
End preserved.

Lemma flatten_keyed_by_ip ps m : flatten ps = Some m → keyed_by_ip m.
Proof.
  apply flatten_loop_preserves; [apply keyed_by_ip_insert|apply keyed_by_ip_empty].
Qed.

(** ** The keys of the merged map *)

(** A loop whose iterations each add the keys [ips x] adds them all. *)
Lemma for_range_dom {A : Type}
    (body : gmap string AddressInfo → A → option (gmap string AddressInfo))
    (ips : A → list string) l m m' :
  (∀ m x m', body m x = Some m' → dom m' = dom m ∪ list_to_set (ips x)) →
  for_range body l m = Some m' →
  dom m' = dom m ∪ list_to_set (l ≫= ips).
Proof.
  intros Hstep. revert m. induction l as [|x l IH]; intros m; simpl.
  - intros [= <-]. symmetry. apply (right_id_L (∅ : gset string) (∪)).
  - destruct (body m x) as [m1|] eqn:Hb; simpl; [|done].
    intros Hl. rewrite (IH _ Hl), (Hstep _ _ _ Hb), list_to_set_app_L.
    by rewrite (assoc_L (∪)).
Qed.

Lemma fmap_as_bind {A B : Type} (f : A → B) (l : list A) :
  f <$> l = l ≫= (λ x, [f x]).
Proof. induction l; simpl; [done|]. by f_equal. Qed.

Lemma flatten_addresses_dom project items m m' :
  flatten_addresses project items m = Some m' →
  dom m' = dom m ∪ list_to_set (scoped_address_ips items).
Proof.
  unfold flatten_addresses, scoped_address_ips. apply for_range_dom.
  intros m2 entry m3. destruct (compute.Addresses entry.2) as [addresses|].
  - rewrite fmap_as_bind. apply for_range_dom. intros m4 a m5.
    destruct (address_record project a) as [c|] eqn:Hc; simpl; [|done].
    intros [= <-]. rewrite insertAddressInfo_dom.
    apply address_record_IP in Hc as [-> _]. set_solver.
  - intros [= <-]. set_solver.
Qed.

Lemma flatten_instances_dom project items m m' :
  flatten_instances project items m = Some m' →
  dom m' = dom m ∪ list_to_set (scoped_instance_ips items).
Proof.
  unfold flatten_instances, scoped_instance_ips. apply for_range_dom.
  intros m2 entry m3. destruct (compute.Instances entry.2) as [instances|].
  - apply for_range_dom. intros m4 i m5.
    destruct (instance_record project i) as [c|] eqn:Hc; simpl; [|done].
    intros [= <-]. rewrite insertAddressInfo_dom. unfold first_interface_ip.
    apply instance_record_IP in Hc as (ni & -> & -> & _). set_solver.
  - intros [= <-]. set_solver.
Qed.

Lemma flatten_project_dom m p m' :
  flatten_project m p = Some m' →
  dom m' = dom m ∪ list_to_set (address_ips p ++ instance_ips p)%list.
Proof.
  unfold flatten_project, address_ips, instance_ips. intros H.
  rewrite list_to_set_app_L.
  destruct (AddressList p) as [al|]; simpl in H.
  - destruct (flatten_addresses _ _ m) as [m1|] eqn:H1; simpl in H; [|done].
    apply flatten_addresses_dom in H1.
    destruct (InstanceList p) as [il|].
    + apply flatten_instances_dom in H. rewrite H, H1. set_solver.
    + injection H as <-. rewrite H1. set_solver.
  - destruct (InstanceList p) as [il|].
    + apply flatten_instances_dom in H. rewrite H. set_solver.
    + injection H as <-. set_solver.
Qed.

Lemma flatten_dom ps m :
  flatten ps = Some m → dom m = list_to_set (referenced_ips ps).
Proof.
  unfold flatten, referenced_ips. intros H.
  rewrite (for_range_dom _ _ _ _ _ flatten_project_dom H). set_solver.
Qed.

Lemma keyed_by_ip_records m :
  keyed_by_ip m → IP <$> records m = (map_to_list m).*1.
Proof.
  intros Hm. unfold records.
  assert (Forall (λ kv : string * AddressInfo, IP kv.2 = kv.1) (map_to_list m)) as H.
  { apply Forall_forall. intros [k r] Hkr. apply (Hm k r).
    by apply elem_of_map_to_list. }
  induction H as [|kv l Hkv _ IH]; simpl; [done|]. by f_equal.
Qed.

Lemma keyed_by_ip_NoDup m : keyed_by_ip m → NoDup (IP <$> records m).
Proof.
  intros Hm. rewrite keyed_by_ip_records by done. apply NoDup_fst_map_to_list.
Qed.

Lemma elem_of_records m r :
  keyed_by_ip m → r ∈ records m ↔ m !! IP r = Some r.
Proof.
  intros Hm. unfold records. rewrite list_elem_of_fmap. split.
  - intros ([k r'] & -> & Hkr). apply elem_of_map_to_list in Hkr.
    simpl. by rewrite (Hm _ _ Hkr).
  - intros Hr. exists (IP r, r). split; [done|]. by apply elem_of_map_to_list.
Qed.

Lemma keyed_by_ip_records_inj m r1 r2 :
  keyed_by_ip m → r1 ∈ records m → r2 ∈ records m → IP r1 = IP r2 → r1 = r2.
Proof.
  intros Hk H1%elem_of_records H2%elem_of_records Heq; [|done..].
  rewrite Heq in H1. congruence.
Qed.

(** C2: whenever [flatten] returns a map, its records have pairwise
    distinct IPs (two records of the map with the same IP are the same
    record), every record is stored under its own IP, and the IPs of the
    records are exactly the IPs that the address and instance records of
    the snapshots refer to, however many of them refer to the same IP. *)
Theorem flatten_one_record_per_ip (ps : list projectResources)
    (m : gmap string AddressInfo) :
  flatten ps = Some m →
  NoDup (IP <$> records m)
  ∧ (∀ r1 r2, r1 ∈ records m → r2 ∈ records m → IP r1 = IP r2 → r1 = r2)
  ∧ (∀ ip, ip ∈ referenced_ips ps ↔ ∃ r, r ∈ records m ∧ IP r = ip).
Proof.
  intros Hm. pose proof (flatten_keyed_by_ip _ _ Hm) as Hk.
  split; [by apply keyed_by_ip_NoDup|]. split.
  - intros r1 r2. by apply keyed_by_ip_records_inj.
  - intros ip. rewrite <- (elem_of_list_to_set (C := gset string)),
      <- (flatten_dom _ _ Hm), elem_of_dom. split.
    + intros [r Hr]. exists r. pose proof (Hk _ _ Hr) as <-.
      split; [by apply elem_of_records|done].
    + intros (r & Hr%elem_of_records & <-); [by eexists|done].
Qed.

(** ** First writer wins *)

(** Insertion at a key that is present merges into the entry found there. *)
Lemma insertAddressInfo_existing m e c :
  m !! IP c = Some e →
  insertAddressInfo m c = <[IP c := merge_into e c]> m.
Proof. unfold insertAddressInfo. by intros ->. Qed.

(** C1, as the code has it: after two candidates with the same IP are
    inserted in this order into a map that has no entry for the IP, the
    entry for the IP keeps the IP and the project of the first candidate and
    every non-empty status, subnet and user of the first candidate; a status,
    subnet or user that is empty in the first candidate is taken from the
    second. *)
Theorem first_writer_wins (m : gmap string AddressInfo) (c1 c2 : AddressInfo) :
  m !! IP c1 = None →
  IP c2 = IP c1 →
  ∃ r, insertAddressInfo (insertAddressInfo m c1) c2 !! IP c1 = Some r
       ∧ IP r = IP c1
       ∧ Project r = Project c1
       ∧ (Status c1 ≠ "" → Status r = Status c1)
       ∧ (Subnet c1 ≠ "" → Subnet r = Subnet c1)
       ∧ (User c1 ≠ "" → User r = User c1)
       ∧ (Status c1 = "" → Status r = Status c2)
       ∧ (Subnet c1 = "" → Subnet r = Subnet c2)
       ∧ (User c1 = "" → User r = User c2).
Proof.
  intros Hnew Hip. exists (merge_into c1 c2).
  rewrite <- Hip at 1. rewrite insertAddressInfo_lookup, Hip.
  rewrite insertAddressInfo_lookup, Hnew.
  unfold merge_into; simpl. repeat split; intros; by case_decide.
Qed.

Lemma first_writer_wins_witness :
  ∃ r, insertAddressInfo
         (insertAddressInfo ∅ (mkAddressInfo "svc-a" "10.0.0.5" "RESERVED" "sub1" ""))
         (mkAddressInfo "svc-b" "10.0.0.5" "" "sub1" "vm1") !! "10.0.0.5" = Some r
       ∧ Project r = "svc-a" ∧ Status r = "RESERVED" ∧ User r = "vm1".
Proof.
  destruct (first_writer_wins ∅
              (mkAddressInfo "svc-a" "10.0.0.5" "RESERVED" "sub1" "")
              (mkAddressInfo "svc-b" "10.0.0.5" "" "sub1" "vm1"))
    as (r & Hr & _ & Hp & Hs & _ & _ & _ & _ & Hu); [reflexivity..|].
  exists r. split; [exact Hr|]. split; [exact Hp|].
  split; [by apply Hs | by apply Hu].
Defined.

(** C1, as the claim has it, fails for the project: a first candidate with
    an empty project keeps it empty, whatever the project of the second.
    The same happens through [flatten] when the first snapshot has the empty
    string as its project. *)
Lemma first_writer_project_not_filled :
  let c1 := mkAddressInfo "" "10.0.0.5" "RESERVED" "sub1" "" in
  let c2 := mkAddressInfo "svc-b" "10.0.0.5" "" "sub1" "vm1" in
  IP c1 = IP c2
  ∧ Project c1 = ""
  ∧ ¬ (∃ r, insertAddressInfo (insertAddressInfo ∅ c1) c2 !! IP c1 = Some r
            ∧ Project r = Project c2)
  ∧ flatten [unnamed_project; svc_b_bare]
    = Some {[ "10.0.0.5" := mkAddressInfo "" "10.0.0.5" "RESERVED" "sub1" "vm1" ]}.
Proof.
  simpl. split; [done|]. split; [done|]. split.
  - intros (r & Hr & Hp). vm_compute in Hr. injection Hr as <-. discriminate Hp.
  - vm_compute. reflexivity.
Qed.

(** ** A candidate that only carries an IP *)

(** C9: when the map holds a fully populated record under the IP of a
    candidate whose other fields are all empty, inserting the candidate
    returns the same map: the record, and every other one, is unchanged. *)
Theorem insert_only_ip_unchanged (m : gmap string AddressInfo) (e c : AddressInfo) :
  m !! IP c = Some e →
  fully_populated e →
  only_ip c →
  insertAddressInfo m c = m ∧ insertAddressInfo m c !! IP c = Some e.
Proof.
  intros He _ (_ & Hs & Hn & Hu).
  assert (insertAddressInfo m c = m) as Heq.
  { rewrite (insertAddressInfo_existing _ _ _ He), merge_into_empty by done.
    by apply insert_id. }
  by rewrite Heq.
Qed.

Lemma insert_only_ip_unchanged_witness :
  let e := mkAddressInfo "svc-a" "10.0.0.5" "RESERVED" "sub1" "vm1" in
  let c := mkAddressInfo "" "10.0.0.5" "" "" "" in
  insertAddressInfo {[ "10.0.0.5" := e ]} c = {[ "10.0.0.5" := e ]}
  ∧ insertAddressInfo {[ "10.0.0.5" := e ]} c !! "10.0.0.5" = Some e.
Proof.
  intros e c. apply (insert_only_ip_unchanged {[ "10.0.0.5" := e ]} e c).
  - reflexivity.
  - repeat split; discriminate.
  - repeat split.
Defined.

(** ** The scenario of two service projects sharing one IP *)

(** C3: on the snapshots of svc-a and svc-b, in this order, [flatten]
    returns the map with the single record
    {ip 10.0.0.5, project svc-a, status RESERVED, subnet sub1, user vm1},
    whether the subnet is given as a self-link or as a bare name. *)
Theorem flatten_two_projects_one_ip :
  flatten [svc_a; svc_b]
  = Some {[ "10.0.0.5" := mkAddressInfo "svc-a" "10.0.0.5" "RESERVED" "sub1" "vm1" ]}
  ∧ flatten [svc_a_bare; svc_b_bare]
    = Some {[ "10.0.0.5" := mkAddressInfo "svc-a" "10.0.0.5" "RESERVED" "sub1" "vm1" ]}.
Proof. split; vm_compute; reflexivity. Qed.

Lemma flatten_one_record_per_ip_witness :
  NoDup (IP <$> records
           {[ "10.0.0.5" := mkAddressInfo "svc-a" "10.0.0.5" "RESERVED" "sub1" "vm1" ]}).
Proof.
  refine (proj1 (flatten_one_record_per_ip [svc_a; svc_b] _ _)).
  vm_compute. reflexivity.
Defined.

(** ** Where [flatten] panics *)

Section total.
Context {A : Type}.
Implicit Types (q : A → bool).

(** A loop whose iterations return or panic independently of the state
    returns exactly when every iteration does. *)
Lemma for_range_is_Some_iff {S : Type} (body : S → A → option S) q l s :
  (∀ s x, is_Some (body s x) ↔ q x = true) →
  is_Some (for_range body l s) ↔ forallb q l = true.
Proof.
  intros Hstep. revert s. induction l as [|x l IH]; intros s; simpl.
  - split; [done|by eexists].
  - rewrite andb_true_iff, <- (Hstep s x).
    destruct (body s x) as [s1|]; simpl.
    + rewrite IH. split; [intros ?; split; [by eexists|done] | by intros [_ ?]].
    + split; [by intros [? ?] | by intros [[? ?] _]].
Qed.
End total.

Lemma flatten_addresses_is_Some project items m :
  is_Some (flatten_addresses project items m)
  ↔ forallb (λ entry : string * compute.AddressesScopedList,
               match compute.Addresses entry.2 with
               | None => true
               | Some addresses => forallb users_in_range addresses
               end) items = true.
Proof.
  apply for_range_is_Some_iff. intros m1 entry.
  destruct (compute.Addresses entry.2) as [addresses|]; [|split; [done|by eexists]].
  apply for_range_is_Some_iff. intros m2 a.
  rewrite <- (address_record_is_Some project).
  destruct (address_record project a); simpl; [split; by eexists|done].
Qed.

Lemma flatten_instances_is_Some project items m :
  is_Some (flatten_instances project items m)
  ↔ forallb (λ entry : string * compute.InstancesScopedList,
               match compute.Instances entry.2 with
               | None => true
               | Some instances => forallb interface_in_range instances
               end) items = true.
Proof.
  apply for_range_is_Some_iff. intros m1 entry.
  destruct (compute.Instances entry.2) as [instances|]; [|split; [done|by eexists]].
  apply for_range_is_Some_iff. intros m2 i.
  rewrite <- (instance_record_is_Some project).
  destruct (instance_record project i); simpl; [split; by eexists|done].
Qed.

Lemma flatten_project_is_Some m p :
  is_Some (flatten_project m p) ↔ indexes_in_range p = true.
Proof.
  unfold flatten_project, indexes_in_range. rewrite andb_true_iff.
  destruct (AddressList p) as [al|]; simpl.
  - rewrite <- (flatten_addresses_is_Some (res_Project p) _ m).
    destruct (flatten_addresses _ _ m) as [m1|]; simpl.
    + destruct (InstanceList p) as [il|].
      * rewrite <- (flatten_instances_is_Some (res_Project p) _ m1).
        split; [intros ?; split; [by eexists|done] | by intros [_ ?]].
      * split; [intros ?; split; by eexists | by eexists].
    + split; [by intros [? ?] | by intros [[? ?] _]].
  - destruct (InstanceList p) as [il|].
    + rewrite <- (flatten_instances_is_Some (res_Project p) _ m). tauto.
    + split; [done|by eexists].
Qed.

(** C10: [flatten] panics on an instance without network interface and on
    an address whose users list is present and empty; it returns a map
    exactly when, in every snapshot, every instance has a network interface
    and every users list that is present has an element.  The index
    expression of [getName] is always in range. *)
Theorem flatten_panics_on_missing_first_element :
  flatten [no_interface] = None
  ∧ flatten [empty_users] = None
  ∧ (∀ ps, forallb indexes_in_range ps = true ↔ is_Some (flatten ps))
  ∧ ∀ selfLink, is_Some (getName selfLink).
Proof.
  split; [reflexivity|]. split; [reflexivity|]. split; [|apply getName_total].
  intros ps. symmetry.
  apply for_range_is_Some_iff. intros m p. apply flatten_project_is_Some.
Qed.

(** ** What a candidate leaves in the merged map *)

Lemma absorbed_merge_into c e c' : absorbed c e → absorbed c (merge_into e c').
Proof.
  intros (Hip & Hs & Hn & Hu). unfold absorbed, merge_into; simpl.
  split; [done|]. repeat split; intros ?; case_decide; naive_solver.
Qed.

Lemma holds_insert c m c' : holds c m → holds c (insertAddressInfo m c').
Proof.
  intros [Hk (r & Hr & Hcr)]. split; [by apply keyed_by_ip_insert|].
  destruct (decide (IP c = IP c')) as [Heq|Hne].
  - rewrite Heq, insertAddressInfo_lookup, <- Heq, Hr.
    eexists. split; [done|]. by apply absorbed_merge_into.
  - rewrite insertAddressInfo_lookup_ne by done. eauto.
Qed.

Lemma holds_insert_self c m : keyed_by_ip m → holds c (insertAddressInfo m c).
Proof.
  intros Hk. split; [by apply keyed_by_ip_insert|].
  rewrite insertAddressInfo_lookup. eexists. split; [done|].
  destruct (m !! IP c) as [e|] eqn:He.
  - pose proof (Hk _ _ He) as Hip. unfold absorbed, merge_into; simpl.
    split; [done|]. repeat split; intros ?; by case_decide.
  - by repeat split.
Qed.

Section elem.
Context {A S : Type} (body : S → A → option S) (Inv P : S → Prop).
Hypothesis Inv_step : ∀ s y s', Inv s → body s y = Some s' → Inv s'.
Hypothesis P_step : ∀ s y s', Inv s → P s → body s y = Some s' → P s'.

End elem.




(** ** A snapshot whose instance fetch failed *)



(** ** [bytes.Compare] is a total preorder *)

Lemma bytes_Compare_flip a b : bytes_Compare b a = (- bytes_Compare a b)%Z.
Proof.
  revert b. induction a as [|x a IH]; intros [|y b]; simpl; try done.
  rewrite (N.compare_antisym (Byte.to_N x) (Byte.to_N y)).
  destruct (N.compare (Byte.to_N x) (Byte.to_N y)); simpl; [apply IH|done..].
Qed.

Lemma bytes_Compare_le_trans a b c :
  (bytes_Compare a b ≤ 0 → bytes_Compare b c ≤ 0 → bytes_Compare a c ≤ 0)%Z.
Proof.
  revert b c. induction a as [|x a IH]; intros [|y b] [|z c]; simpl; try lia.
  destruct (N.compare_spec (Byte.to_N x) (Byte.to_N y)) as [Hxy|Hxy|Hxy];
    destruct (N.compare_spec (Byte.to_N y) (Byte.to_N z)) as [Hyz|Hyz|Hyz];
    destruct (N.compare_spec (Byte.to_N x) (Byte.to_N z)) as [Hxz|Hxz|Hxz];
    try lia; apply IH.
Qed.

(** ** [sort.Slice] *)

Section sort_Slice.
Context {A : Type} (lt : A → A → bool) (le : A → A → Prop).
Hypothesis lt_le : ∀ x y, lt x y = true → le x y.
Hypothesis not_lt_le : ∀ x y, lt y x = false → le x y.
Hypothesis le_trans : ∀ x y z, le x y → le y z → le x z.

Lemma sort_insert_Permutation x l : sort_insert lt x l ≡ₚ x :: l.
Proof.
  induction l as [|y l IH]; simpl; [done|].
  destruct (lt y x); [|done]. rewrite IH. apply Permutation_swap.
Qed.

Lemma sort_Slice_Permutation l : sort_Slice lt l ≡ₚ l.
Proof.
  induction l as [|x l IH]; simpl; [done|].
  unfold sort_Slice in *. simpl. by rewrite sort_insert_Permutation, IH.
Qed.

Lemma sort_insert_StronglySorted x l :
  StronglySorted le l → StronglySorted le (sort_insert lt x l).
Proof.
  induction 1 as [|y l Hl IH Hy]; simpl; [repeat constructor|].
  destruct (lt y x) eqn:Hyx.
  - constructor; [done|]. rewrite sort_insert_Permutation.
    constructor; [by apply lt_le|done].
  - assert (le x y) as Hxy by by apply not_lt_le.
    constructor; [by constructor|]. constructor; [done|].
    eapply Forall_impl; [exact Hy|]. intros z Hz. by eapply le_trans.
Qed.

Lemma sort_Slice_StronglySorted l : StronglySorted le (sort_Slice lt l).
Proof.
  induction l as [|x l IH]; [constructor|].
  unfold sort_Slice in *. simpl. by apply sort_insert_StronglySorted.
Qed.
End sort_Slice.

Lemma sort_by_ip_StronglySorted ParseIP l :
  StronglySorted (ip_le ParseIP) (sort_Slice (less ParseIP) l).
Proof.
  apply sort_Slice_StronglySorted; unfold less, ip_le.
  - intros x y Hlt%bool_decide_eq_true. lia.
  - intros x y Hlt%bool_decide_eq_false.
    rewrite bytes_Compare_flip. lia.
  - intros x y z. apply bytes_Compare_le_trans.
Qed.

(** C4: when the file of a subnet can be created and written, its table
    holds the rows of the records handed in, each once, in ascending order
    of the bytes of the parsed IP: the key of every row is at most the key
    of every later row.  The records with IPs 10.0.0.10, 10.0.0.2 and
    10.0.0.9 come out as 10.0.0.2, 10.0.0.9, 10.0.0.10. *)
Theorem writeToFile_rows_sorted_by_ip :
  (∀ ParseIP fs subnet l disk,
     Create_fails fs (subnet ++ ".md") = false →
     WriteString_fails fs (subnet ++ ".md") = false →
     ∃ sorted,
       writeToFile ParseIP fs subnet l disk
       = (<[subnet ++ ".md" :=
             mkContent ("# Reserved IPs for " ++ subnet ++ newline)
                       ["IP"; "GCP Project"; "Status"; "User"]
                       (row <$> sorted)]>
            (<[subnet ++ ".md" := mkContent "" [] []]> disk),
          Return tt)
       ∧ sorted ≡ₚ l
       ∧ StronglySorted (ip_le ParseIP) sorted)
  ∧ (let r := λ ip, mkAddressInfo "svc-a" ip "RESERVED" "sub1" "" in
     (writeToFile parseIPv4 reliable "sub1"
        [r "10.0.0.10"; r "10.0.0.2"; r "10.0.0.9"] ∅).1 !! "sub1.md"
     = Some (mkContent ("# Reserved IPs for sub1" ++ newline)
                       ["IP"; "GCP Project"; "Status"; "User"]
                       [row (r "10.0.0.2"); row (r "10.0.0.9"); row (r "10.0.0.10")])).
Proof.
  split.
  - intros ParseIP fs subnet l disk Hc Hw.
    exists (sort_Slice (less ParseIP) l). unfold writeToFile. rewrite Hc, Hw.
    split; [done|]. split; [apply sort_Slice_Permutation|].
    apply sort_by_ip_StronglySorted.
  - vm_compute. reflexivity.
Qed.

Lemma writeToFile_rows_sorted_by_ip_witness :
  ∃ sorted,
    sorted ≡ₚ [mkAddressInfo "svc-a" "10.0.0.9" "" "sub1" "vm2";
               mkAddressInfo "svc-a" "10.0.0.10" "" "sub1" "vm1"]
    ∧ StronglySorted (ip_le parseIPv4) sorted.
Proof.
  destruct (proj1 writeToFile_rows_sorted_by_ip parseIPv4 reliable "sub1"
              [mkAddressInfo "svc-a" "10.0.0.9" "" "sub1" "vm2";
               mkAddressInfo "svc-a" "10.0.0.10" "" "sub1" "vm1"] ∅
              eq_refl eq_refl) as (sorted & _ & Hp & Hs).
  exists sorted. split; [exact Hp | exact Hs].
Defined.

(** ** The fan-in of [getAllResources] *)

Lemma receive_all_Permutation {A : Type} schedule (pending : list A) :
  receive_all (length pending) schedule pending ≡ₚ pending.
Proof.
  remember (length pending) as fuel eqn:Hfuel.
  revert schedule pending Hfuel.
  induction fuel as [|fuel IH]; intros schedule pending Hfuel; simpl.
  - by destruct pending.
  - rewrite <- Hfuel.
    destruct (lookup_lt_is_Some_2 pending (hd 0 schedule mod S fuel)%nat)
      as [s Hs]; [rewrite <- Hfuel; apply Nat.mod_upper_bound; lia|].
    rewrite Hs. rewrite IH.
    + symmetry. by apply delete_Permutation.
    + rewrite length_delete by by eexists. lia.
Qed.

Lemma gather_sent {A : Type} (f : A → projectResources) (l : list A) :
  gather ((λ x, Some (f x)) <$> l) = f <$> l.
Proof. unfold gather. induction l; simpl; [done|]. by f_equal. Qed.

Lemma getAllResources_returns hostProject service schedule res :
  getServiceProjects hostProject service = Ok res →
  ∃ output,
    getAllResources hostProject service schedule = Return output
    ∧ output ≡ₚ (λ resource, getResources (Id resource) service) <$> Resources res.
Proof.
  intros Hres. unfold getAllResources. rewrite Hres. eexists. split; [done|].
  rewrite <- (gather_sent (λ resource, getResources (Id resource) service)).
  unfold gather. apply omap_Permutation, receive_all_Permutation.
Qed.

(** ** Failures of the report files *)




Lemma main_reaches_writeAll w hostProject service resources groups :
  Args w !! 1%nat = Some hostProject →
  client w = Ok service →
  getAllResources hostProject service (schedule w) = Return resources →
  @extractFields (order w) resources = Some groups →
  main w = @writeAll (order w) (ParseIP w) (files w) groups ∅.
Proof.
  intros Harg Hc Hr Hg. unfold main, initClient.
  rewrite bool_decide_eq_false_2.
  - by rewrite Harg, Hc, Hr, Hg.
  - apply lookup_lt_Some in Harg. lia.
Qed.



(** ** The grouping by subnet *)

Section grouping.
Implicit Types (g : gmap string (list AddressInfo)) (l : list AddressInfo).

(** After the loop, the slice under a key holds the visited records of
    that subnet, in the order of the visit; a key is present when there
    is such a record. *)
Lemma foldl_append_by_subnet_lookup l k :
  foldl append_by_subnet ∅ l !! k
  = match filter (λ r, Subnet r = k) l with
    | [] => None
    | rs => Some rs
    end.
Proof.
  induction l as [|x l IH] using rev_ind; [done|].
  rewrite foldl_snoc, filter_app. unfold append_by_subnet at 1.
  destruct (decide (Subnet x = k)) as [Heq|Hne].
  - rewrite Heq, lookup_insert_eq, IH, filter_cons_True by done.
    destruct (filter _ l); done.
  - rewrite lookup_insert_ne, IH, filter_cons_False by done.
    by rewrite filter_nil, app_nil_r.
Qed.

Lemma filed_insert_fresh g k rs :
  g !! k = None →
  filed (<[k := rs]> g) ≡ₚ (if decide (k ≠ "") then rs else []) ++ filed g.
Proof.
  intros Hk. unfold filed. rewrite map_to_list_insert by done.
  case_decide.
  - by rewrite filter_cons_True by done.
  - by rewrite filter_cons_False by (simpl; congruence).
Qed.

Lemma filed_append_by_subnet g x :
  filed (append_by_subnet g x)
  ≡ₚ (if decide (Subnet x ≠ "") then [x] else []) ++ filed g.
Proof.
  unfold append_by_subnet. destruct (g !! Subnet x) as [rs|] eqn:Hk; simpl.
  - assert (filed g ≡ₚ (if decide (Subnet x ≠ "") then rs else [])
                       ++ filed (delete (Subnet x) g)) as Hg.
    { rewrite <- filed_insert_fresh by apply lookup_delete_eq.
      by rewrite insert_delete_id. }
    rewrite <- insert_delete_eq.
    rewrite filed_insert_fresh by apply lookup_delete_eq. rewrite Hg.
    case_decide; simpl; [|done].
    by rewrite (Permutation_app_comm rs [x]).
  - rewrite filed_insert_fresh by done. by case_decide.
Qed.

Lemma filed_foldl g l :
  filed (foldl append_by_subnet g l)
  ≡ₚ filter (λ r, Subnet r ≠ "") l ++ filed g.
Proof.
  revert g. induction l as [|x l IH]; intros g; simpl; [done|].
  rewrite IH, filed_append_by_subnet, filter_cons.
  case_decide; simpl; [|done].
  by rewrite Permutation_middle.
Qed.
End grouping.

Section partition.
Context `{MapOrder}.
Implicit Types (m : gmap string AddressInfo).

Lemma visited_records m : visited m ≡ₚ records m.
Proof. unfold visited, records. by rewrite range_map_perm. Qed.

Lemma group_by_subnet_lookup m k rs :
  group_by_subnet m !! k = Some rs
  ↔ rs ≠ [] ∧ rs = filter (λ r, Subnet r = k) (visited m).
Proof.
  unfold group_by_subnet. rewrite foldl_append_by_subnet_lookup.
  fold (visited m). destruct (filter _ (visited m)) as [|r rs'].
  - split; [done|]. by intros [? ->].
  - split; [by intros [= <-]|]. by intros [_ ->].
Qed.

Lemma keyed_by_ip_NoDup_records m : keyed_by_ip m → NoDup (records m).
Proof. intros Hm. eapply NoDup_fmap_1, keyed_by_ip_NoDup, Hm. Qed.

Lemma filed_group_by_subnet m :
  filed (group_by_subnet m) ≡ₚ filter (λ r, Subnet r ≠ "") (records m).
Proof.
  unfold group_by_subnet. rewrite filed_foldl. fold (visited m).
  rewrite visited_records. unfold filed. rewrite map_to_list_empty. simpl.
  by rewrite app_nil_r.
Qed.

(** A record is in the group of its own subnet. *)
Lemma group_by_subnet_member m r :
  r ∈ records m →
  ∃ rs, group_by_subnet m !! Subnet r = Some rs ∧ r ∈ rs.
Proof.
  intros Hr. exists (filter (λ r', Subnet r' = Subnet r) (visited m)).
  assert (r ∈ filter (λ r', Subnet r' = Subnet r) (visited m)) as Hin.
  { apply list_elem_of_filter. split; [done|]. by rewrite visited_records. }
  split; [|done]. apply group_by_subnet_lookup. split; [|done].
  intros Hnil. rewrite Hnil in Hin. by apply elem_of_nil in Hin.
Qed.

(** A group is not empty and holds records of the subnet of its key. *)
Lemma group_by_subnet_group m k rs :
  group_by_subnet m !! k = Some rs →
  rs ≠ [] ∧ ∀ r, r ∈ rs → r ∈ records m ∧ Subnet r = k.
Proof.
  intros [Hne ->]%group_by_subnet_lookup. split; [done|].
  intros r [Hs Hr]%list_elem_of_filter. by rewrite <- visited_records.
Qed.

(** C8: the grouping of the merged map is a partition of its records.
    A record is in the group of its own subnet, once, and in no other
    group; a group holds only records of the merged map with the subnet of
    its key, and is never empty; the records of the groups of the
    non-empty subnets, taken together, are the records of the merged map
    whose subnet is not empty. *)
Theorem group_by_subnet_partition (ps : list projectResources)
    (m : gmap string AddressInfo) :
  flatten ps = Some m →
  extractFields ps = Some (group_by_subnet m)
  ∧ (∀ r, r ∈ records m →
       ∃ rs, group_by_subnet m !! Subnet r = Some rs
             ∧ r ∈ rs
             ∧ NoDup rs
             ∧ ∀ k rs', group_by_subnet m !! k = Some rs' → r ∈ rs' → k = Subnet r)
  ∧ (∀ k rs, group_by_subnet m !! k = Some rs →
       rs ≠ [] ∧ ∀ r, r ∈ rs → r ∈ records m ∧ Subnet r = k)
  ∧ filed (group_by_subnet m) ≡ₚ filter (λ r, Subnet r ≠ "") (records m)
  ∧ NoDup (filed (group_by_subnet m)).
Proof.
  intros Hm. pose proof (flatten_keyed_by_ip _ _ Hm) as Hk.
  pose proof (keyed_by_ip_NoDup_records _ Hk) as Hnd.
  split; [unfold extractFields; by rewrite Hm|]. split; [|split; [|split]].
  - intros r Hr. destruct (group_by_subnet_member m r Hr) as (rs & Hrs & Hin).
    exists rs. split; [done|]. split; [done|]. split.
    + apply group_by_subnet_lookup in Hrs as [_ ->].
      apply NoDup_filter. by rewrite visited_records.
    + intros k rs' Hrs' Hin'.
      destruct (group_by_subnet_group m k rs' Hrs') as [_ Hall].
      by destruct (Hall r Hin') as [_ <-].
  - apply group_by_subnet_group.
  - apply filed_group_by_subnet.
  - rewrite filed_group_by_subnet. by apply NoDup_filter.
Qed.
End partition.

Lemma group_by_subnet_partition_witness :
  @extractFields canonical_order [svc_a; svc_b]
  = Some (@group_by_subnet canonical_order
            {[ "10.0.0.5" := mkAddressInfo "svc-a" "10.0.0.5" "RESERVED" "sub1" "vm1" ]}).
Proof.
  refine (proj1 (@group_by_subnet_partition canonical_order [svc_a; svc_b] _ _)).
  vm_compute. reflexivity.
Defined.

(** ** What reaches the report files *)

Lemma string_length_append (s1 s2 : string) :
  String.length (s1 ++ s2) = (String.length s1 + String.length s2)%nat.
Proof. induction s1 as [|c s1 IH]; simpl; [done|]. by rewrite IH. Qed.

Lemma report_name_not_bare (subnet : string) : subnet ≠ "" → subnet ++ ".md" ≠ ".md".
Proof.
  intros Hne Heq. apply (f_equal String.length) in Heq.
  rewrite string_length_append in Heq. destruct subnet; [done|]. simpl in Heq. lia.
Qed.

Section reports.
Variables (ParseIP : string → list byte) (fs : FileSystem).
Variable allowed : list AddressInfo.

Lemma reports_only_insert disk subnet content :
  subnet ≠ "" →
  (∀ x, x ∈ table content → ∃ r, r ∈ allowed ∧ x = row r) →
  reports_only allowed disk →
  reports_only allowed (<[subnet ++ ".md" := content]> disk).
Proof.
  intros Hne Hrows Hdisk name content'.
  destruct (decide (name = subnet ++ ".md")) as [->|Hname].
  - rewrite lookup_insert_eq. intros [= <-]. split; [by exists subnet|done].
  - rewrite lookup_insert_ne by done. apply Hdisk.
Qed.

Lemma writeToFile_reports_only subnet l disk :
  subnet ≠ "" →
  (∀ r, r ∈ l → r ∈ allowed) →
  reports_only allowed disk →
  reports_only allowed (writeToFile ParseIP fs subnet l disk).1.
Proof.
  intros Hne Hl Hdisk. unfold writeToFile.
  destruct (Create_fails fs _); [done|].
  assert (reports_only allowed (<[subnet ++ ".md" := mkContent "" [] []]> disk))
    as Hcreated.
  { apply reports_only_insert; [done| |done]. simpl. intros x Hx.
    by apply elem_of_nil in Hx. }
  destruct (WriteString_fails fs _); [done|]. simpl.
  apply reports_only_insert; [done| |done]. simpl.
  intros x (r & -> & Hr)%list_elem_of_fmap. exists r. split; [|done].
  apply Hl. by rewrite <- (sort_Slice_Permutation (less ParseIP) l).
Qed.

Lemma writeAll_loop_reports_only entries disk :
  (∀ entry r, entry ∈ entries → entry.1 ≠ "" → r ∈ entry.2 → r ∈ allowed) →
  reports_only allowed disk →
  reports_only allowed (writeAll_loop ParseIP fs entries disk).1.
Proof.
  revert disk. induction entries as [|[subnet l] entries IH];
    intros disk Hentries Hdisk; simpl; [done|].
  assert (∀ entry r, entry ∈ entries → entry.1 ≠ "" → r ∈ entry.2 → r ∈ allowed)
    as Hrest by (intros entry r ?; apply Hentries; by right).
  destruct (decide (subnet ≠ "")) as [Hne|_]; [|by apply IH].
  pose proof (writeToFile_reports_only subnet l disk Hne) as Hw.
  destruct (writeToFile ParseIP fs subnet l disk) as [disk' [[]|code|]]; simpl in *.
  - apply IH; [done|]. apply Hw; [|done]. intros r. by apply (Hentries (subnet, l)); [left|].
  - apply Hw; [|done]. intros r. by apply (Hentries (subnet, l)); [left|].
  - apply Hw; [|done]. intros r. by apply (Hentries (subnet, l)); [left|].
Qed.
End reports.

Lemma reports_only_empty allowed : reports_only allowed ∅.
Proof. intros name content. by rewrite lookup_empty. Qed.

Lemma row_inj r1 r2 : row r1 = row r2 → IP r1 = IP r2.
Proof. unfold row. by intros [= ? _]. Qed.

(** C7: a record of the merged map whose subnet is empty is kept by the
    grouping in the group of the empty key, and its row is in none of the
    files that [writeAll] leaves, however the run ends; no file is written
    for the empty key. *)
Theorem empty_subnet_never_written `{MapOrder} (ParseIP : string → list byte)
    (fs : FileSystem) (ps : list projectResources) (m : gmap string AddressInfo)
    (r : AddressInfo) :
  flatten ps = Some m →
  r ∈ records m →
  Subnet r = "" →
  (∃ rs, group_by_subnet m !! "" = Some rs ∧ r ∈ rs)
  ∧ (writeAll ParseIP fs (group_by_subnet m) ∅).1 !! ("" ++ ".md") = None
  ∧ ∀ name content,
      (writeAll ParseIP fs (group_by_subnet m) ∅).1 !! name = Some content →
      row r ∉ table content.
Proof.
  intros Hm Hr Hs.
  pose proof (group_by_subnet_member m) as Hin.
  pose proof (group_by_subnet_group m) as Hgroups.
  assert (reports_only (filter (λ r, Subnet r ≠ "") (records m))
            (writeAll ParseIP fs (group_by_subnet m) ∅).1) as Hdisk.
  { unfold writeAll. apply writeAll_loop_reports_only; [|apply reports_only_empty].
    intros [k rs] r' Hentry Hk Hr'. simpl in *. apply list_elem_of_filter.
    rewrite range_map_perm in Hentry. apply elem_of_map_to_list in Hentry.
    destruct (Hgroups k rs Hentry) as [_ Hrs].
    destruct (Hrs r' Hr') as [? ->]. done. }
  split; [|split].
  - destruct (Hin r Hr) as (rs & Hrs & ?). rewrite Hs in Hrs. eauto.
  - destruct (_ !! ("" ++ ".md")) as [content|] eqn:Hfile; [|done].
    destruct (Hdisk _ _ Hfile) as [(subnet & Hne & Hname) _].
    symmetry in Hname. by apply report_name_not_bare in Hname.
  - intros name content Hfile Hrow.
    destruct (Hdisk _ _ Hfile) as [_ Hrows].
    destruct (Hrows _ Hrow) as (r' & [Hne Hr']%list_elem_of_filter & Heq).
    apply row_inj in Heq.
    apply Hne. rewrite <- Hs. f_equal. symmetry.
    apply (keyed_by_ip_records_inj m); [by eapply flatten_keyed_by_ip|done..].
Qed.

Lemma empty_subnet_never_written_witness :
  (∃ rs, @group_by_subnet canonical_order svc_c_merged !! "" = Some rs
         ∧ mkAddressInfo "svc-c" "34.73.1.2" "IN_USE" "" "vm9" ∈ rs)
  ∧ (@writeAll canonical_order parseIPv4 reliable
       (@group_by_subnet canonical_order svc_c_merged) ∅).1 !! ("" ++ ".md") = None.
Proof.
  destruct (@empty_subnet_never_written canonical_order parseIPv4 reliable
              [svc_c] svc_c_merged
              (mkAddressInfo "svc-c" "34.73.1.2" "IN_USE" "" "vm9"))
    as (Hgroup & Hfile & _).
  - vm_compute. reflexivity.
  - vm_compute. repeat constructor.
  - reflexivity.
  - split; [exact Hgroup | exact Hfile].
Defined.

Lemma flatten_panics_on_missing_first_element_witness :
  is_Some (flatten [svc_a; svc_b; svc_c]).
Proof.
  apply (proj1 (proj1 (proj2 (proj2 flatten_panics_on_missing_first_element))
                  [svc_a; svc_b; svc_c])).
  reflexivity.
Defined.

(** * Further properties *)

(** ** The name at the end of a link *)

Lemma strings_Split_no_sep s sep :
  has_sep sep s = false → strings_Split s sep = [s].
Proof.
  induction s as [|c s IH]; simpl; [done|].
  destruct (Ascii.eqb c sep); simpl; [done|]. intros Hs. by rewrite IH.
Qed.

(** Splitting around one separator splits both sides. *)
Lemma strings_Split_app p n sep :
  strings_Split (p ++ String sep n) sep
  = (strings_Split p sep ++ strings_Split n sep)%list.
Proof.
  induction p as [|c p IH]; simpl.
  - by rewrite Ascii.eqb_refl.
  - destruct (Ascii.eqb c sep); simpl; [by rewrite IH|].
    rewrite IH. pose proof (strings_Split_length p sep) as Hlen.
    destruct (strings_Split p sep); [simpl in Hlen; lia|done].
Qed.

(** Every string is free of the separator or ends in a separator followed
    by a piece that is free of it. *)
Lemma last_separator s sep :
  has_sep sep s = false
  ∨ ∃ p n, s = p ++ String sep n ∧ has_sep sep n = false.
Proof.
  induction s as [|c s IH]; simpl; [by left|].
  destruct IH as [Hs|(p & n & -> & Hn)].
  - destruct (Ascii.eqb_spec c sep) as [->|_]; simpl; [|by left].
    right. by exists "", s.
  - right. by exists (String c p), n.
Qed.

Lemma getName_no_sep s : has_sep "/" s = false → getName s = Some s.
Proof. intros Hs. unfold getName. by rewrite strings_Split_no_sep. Qed.

Lemma getName_app p n :
  has_sep "/" n = false → getName (p ++ String "/" n) = Some n.
Proof.
  intros Hn. unfold getName.
  rewrite strings_Split_app, (strings_Split_no_sep n) by done.
  rewrite length_app. simpl.
  replace (length (strings_Split p "/") + 1 - 1)%nat
    with (length (strings_Split p "/") + 0)%nat by lia.
  by rewrite lookup_app_r, Nat.add_0_r, Nat.sub_diag by lia.
Qed.

Lemma getName_spec s :
  ∃ n, getName s = Some n
       ∧ has_sep "/" n = false
       ∧ (s = n ∨ ∃ p, s = p ++ String "/" n).
Proof.
  destruct (last_separator s "/") as [Hs|(p & n & -> & Hn)].
  - exists s. rewrite getName_no_sep by done. auto.
  - exists n. rewrite getName_app by done. eauto.
Qed.

(** X1: [getName] returns the part of the link after its last slash, and the
    whole link when it has no slash: the name it returns has no slash, and
    the link is the name or ends in a slash followed by the name.  In
    particular the name of a name is the name itself. *)
Theorem getName_is_last_segment (selfLink : string) :
  ∃ name,
    getName selfLink = Some name
    ∧ has_sep "/" name = false
    ∧ (selfLink = name ∨ ∃ parent, selfLink = parent ++ String "/" name)
    ∧ getName name = Some name
    ∧ ∀ parent, getName (parent ++ String "/" name) = Some name.
Proof.
  destruct (getName_spec selfLink) as (n & Hn & Hsep & Hs).
  exists n. split; [done|]. split; [done|]. split; [done|].
  split; [by apply getName_no_sep|]. intros parent. by apply getName_app.
Qed.


(** ** Algebra of [insertAddressInfo] *)

Lemma merge_into_idem e c : merge_into (merge_into e c) c = merge_into e c.
Proof.
  destruct e as [p i s n u], c as [p' i' s' n' u']. unfold merge_into; simpl.
  f_equal; repeat case_decide; congruence.
Qed.

Lemma merge_into_self c : merge_into c c = c.
Proof. destruct c as [p i s n u]. unfold merge_into; simpl. f_equal; by case_decide. Qed.

(** X2: inserting the same candidate a second time changes nothing. *)
Theorem insertAddressInfo_idempotent (m : gmap string AddressInfo) (c : AddressInfo) :
  insertAddressInfo (insertAddressInfo m c) c = insertAddressInfo m c.
Proof.
  pose proof (insertAddressInfo_lookup m c) as Hc.
  rewrite (insertAddressInfo_existing _ _ _ Hc). apply insert_id. rewrite Hc.
  f_equal. destruct (m !! IP c); symmetry;
    [apply merge_into_idem | apply merge_into_self].
Qed.

Lemma insertAddressInfo_comm m c1 c2 :
  IP c1 ≠ IP c2 →
  insertAddressInfo (insertAddressInfo m c1) c2
  = insertAddressInfo (insertAddressInfo m c2) c1.
Proof.
  intros Hne. apply map_eq. intros k.
  destruct (decide (k = IP c1)) as [->|H1].
  - rewrite insertAddressInfo_lookup_ne by done.
    rewrite !insertAddressInfo_lookup.
    by rewrite insertAddressInfo_lookup_ne by done.
  - destruct (decide (k = IP c2)) as [->|H2].
    + rewrite (insertAddressInfo_lookup_ne _ c1) by done.
      rewrite !insertAddressInfo_lookup.
      by rewrite insertAddressInfo_lookup_ne by done.
    + by rewrite !insertAddressInfo_lookup_ne by done.
Qed.

(** X3: two candidates with different IPs can be inserted in either order:
    the resulting map is the same. *)
Theorem insertAddressInfo_commutes (m : gmap string AddressInfo)
    (c1 c2 : AddressInfo) :
  IP c1 ≠ IP c2 →
  insertAddressInfo (insertAddressInfo m c1) c2
  = insertAddressInfo (insertAddressInfo m c2) c1.
Proof. apply insertAddressInfo_comm. Qed.

Lemma insertAddressInfo_commutes_witness :
  insertAddressInfo
    (insertAddressInfo ∅ (mkAddressInfo "svc-a" "10.0.0.5" "RESERVED" "sub1" ""))
    (mkAddressInfo "svc-b" "10.0.0.6" "" "sub1" "vm1")
  = insertAddressInfo
      (insertAddressInfo ∅ (mkAddressInfo "svc-b" "10.0.0.6" "" "sub1" "vm1"))
      (mkAddressInfo "svc-a" "10.0.0.5" "RESERVED" "sub1" "").
Proof.
  apply (insertAddressInfo_commutes ∅
           (mkAddressInfo "svc-a" "10.0.0.5" "RESERVED" "sub1" "")
           (mkAddressInfo "svc-b" "10.0.0.6" "" "sub1" "vm1")).
  simpl. discriminate.
Defined.

(** X4: an insertion touches one key.  A candidate whose IP is not in the
    map is stored as it is and the map grows by one entry; when the IP is
    in the map the number of entries stays; every other key keeps its
    entry. *)
Theorem insertAddressInfo_one_key (m : gmap string AddressInfo) (c : AddressInfo) :
  (m !! IP c = None →
     insertAddressInfo m c !! IP c = Some c
     ∧ size (insertAddressInfo m c) = S (size m))
  ∧ (is_Some (m !! IP c) → size (insertAddressInfo m c) = size m)
  ∧ (∀ k, k ≠ IP c → insertAddressInfo m c !! k = m !! k).
Proof.
  split; [|split].
  - intros Hnew. rewrite insertAddressInfo_lookup, Hnew. split; [done|].
    unfold insertAddressInfo. rewrite Hnew. by apply map_size_insert_None.
  - intros [e He]. rewrite (insertAddressInfo_existing _ _ _ He).
    by apply map_size_insert_Some.
  - intros k. apply insertAddressInfo_lookup_ne.
Qed.

Lemma insertAddressInfo_one_key_witness :
  insertAddressInfo ∅ (mkAddressInfo "svc-a" "10.0.0.5" "RESERVED" "sub1" "")
    !! "10.0.0.5"
  = Some (mkAddressInfo "svc-a" "10.0.0.5" "RESERVED" "sub1" "")
  ∧ size (insertAddressInfo ∅ (mkAddressInfo "svc-a" "10.0.0.5" "RESERVED" "sub1" ""))
    = S (size (∅ : gmap string AddressInfo)).
Proof.
  apply (proj1 (insertAddressInfo_one_key ∅
                  (mkAddressInfo "svc-a" "10.0.0.5" "RESERVED" "sub1" ""))).
  reflexivity.
Defined.

(** ** [flatten] as a fold over the candidates *)

Lemma for_range_app {A S : Type} (body : S → A → option S) l1 l2 s :
  for_range body (l1 ++ l2) s = s' ← for_range body l1 s; for_range body l2 s'.
Proof.
  revert s. induction l1 as [|x l1 IH]; intros s; simpl; [done|].
  destruct (body s x); simpl; [apply IH|done].
Qed.

Section fold.
Context {A B S : Type}.

(** A loop that builds a value and folds it in is the fold over the values
    built, when all can be built. *)
Lemma for_range_mapM (f : A → option B) (g : S → B → S) l s :
  for_range (λ s x, c ← f x; Some (g s c)) l s
  = cs ← mapM f l; Some (foldl g s cs).
Proof.
  revert s. induction l as [|x l IH]; intros s; simpl; [done|].
  destruct (f x) as [c|]; simpl; [|done].
  rewrite IH. by destruct (mapM f l).
Qed.

(** Two nested loops are one loop over the concatenation. *)
Lemma for_range_nested (body : S → B → option S) (h : A → option (list B)) l s :
  for_range (λ s x, match h x with
                    | Some ys => for_range body ys s
                    | None => Some s
                    end) l s
  = for_range body (x ← l; default [] (h x)) s.
Proof.
  revert s. induction l as [|x l IH]; intros s; simpl; [done|].
  rewrite for_range_app. destruct (h x) as [ys|]; simpl.
  - destruct (for_range body ys s); simpl; [apply IH|done].
  - apply IH.
Qed.
End fold.

Lemma flatten_addresses_fold project items m :
  flatten_addresses project items m
  = cs ← mapM (address_record project) (scoped_addresses items);
    Some (foldl insertAddressInfo m cs).
Proof.
  unfold flatten_addresses, scoped_addresses.
  rewrite <- for_range_mapM.
  apply (for_range_nested
           (λ m' address, info ← address_record project address;
                          Some (insertAddressInfo m' info))
           (λ entry : string * compute.AddressesScopedList,
              compute.Addresses entry.2)).
Qed.

Lemma flatten_instances_fold project items m :
  flatten_instances project items m
  = cs ← mapM (instance_record project) (scoped_instances items);
    Some (foldl insertAddressInfo m cs).
Proof.
  unfold flatten_instances, scoped_instances.
  rewrite <- for_range_mapM.
  apply (for_range_nested
           (λ m' instance, info ← instance_record project instance;
                           Some (insertAddressInfo m' info))
           (λ entry : string * compute.InstancesScopedList,
              compute.Instances entry.2)).
Qed.

Lemma flatten_project_fold m p :
  flatten_project m p
  = cs ← project_candidates p; Some (foldl insertAddressInfo m cs).
Proof.
  unfold flatten_project, project_candidates.
  destruct (AddressList p) as [al|]; simpl.
  - rewrite flatten_addresses_fold.
    destruct (mapM _ (scoped_addresses _)) as [cs|]; simpl; [|done].
    destruct (InstanceList p) as [il|]; simpl.
    + rewrite flatten_instances_fold.
      destruct (mapM _ (scoped_instances _)) as [cs'|]; simpl; [|done].
      by rewrite foldl_app.
    + by rewrite app_nil_r.
  - destruct (InstanceList p) as [il|]; simpl; [|done].
    rewrite flatten_instances_fold.
    by destruct (mapM _ (scoped_instances _)).
Qed.

Lemma flatten_loop_fold ps m :
  for_range flatten_project ps m
  = cs ← candidates ps; Some (foldl insertAddressInfo m cs).
Proof.
  unfold candidates. revert m. induction ps as [|p ps IH]; intros m; simpl; [done|].
  rewrite flatten_project_fold.
  destruct (project_candidates p) as [cs|]; simpl; [|done].
  rewrite IH. destruct (mapM project_candidates ps) as [css|]; simpl; [|done].
  by rewrite foldl_app.
Qed.

(** X5: [flatten] is the left fold of [insertAddressInfo], from the empty
    map, over the records built from the snapshots in the order of the
    loops (per snapshot the addresses, then the instances); it panics
    exactly when one of these records cannot be built. *)
Theorem flatten_is_fold (projectResourceList : list projectResources) :
  flatten projectResourceList
  = cs ← candidates projectResourceList; Some (foldl insertAddressInfo ∅ cs).
Proof. apply flatten_loop_fold. Qed.

(** ** What later insertions keep *)

Lemma extends_refl e : extends e e.
Proof. by repeat split. Qed.

Lemma extends_merge_into e r c : extends e r → extends e (merge_into r c).
Proof.
  intros (Hip & Hp & Hs & Hn & Hu). unfold extends, merge_into; simpl.
  split; [done|]. split; [done|].
  repeat split; intros Hne;
    [specialize (Hs Hne) | specialize (Hn Hne) | specialize (Hu Hne)];
    case_decide; congruence.
Qed.

Lemma foldl_insert_extends cs m k e :
  m !! k = Some e →
  ∃ r, foldl insertAddressInfo m cs !! k = Some r ∧ extends e r.
Proof.
  intros He.
  enough (∀ m, (∃ r, m !! k = Some r ∧ extends e r) →
               ∃ r, foldl insertAddressInfo m cs !! k = Some r ∧ extends e r) as H.
  { apply H. exists e. split; [done|apply extends_refl]. }
  clear m He. induction cs as [|c cs IH]; intros m Hm; simpl; [done|].
  apply IH. destruct Hm as (r & Hr & Her).
  destruct (decide (k = IP c)) as [->|Hne].
  - rewrite insertAddressInfo_lookup, Hr. eexists. split; [done|].
    by apply extends_merge_into.
  - rewrite insertAddressInfo_lookup_ne by done. eauto.
Qed.

(** X6: first writer wins over the whole run.  The map that [flatten]
    returns for a list of snapshots holds, under every IP that the map of a
    prefix of the list holds, a record with the same project and with every
    status, subnet and user that the record of the prefix has. *)
Theorem flatten_keeps_earlier_records (ps1 ps2 : list projectResources)
    (m : gmap string AddressInfo) :
  flatten (ps1 ++ ps2) = Some m →
  ∃ m1, flatten ps1 = Some m1
        ∧ ∀ k e, m1 !! k = Some e → ∃ r, m !! k = Some r ∧ extends e r.
Proof.
  unfold flatten. rewrite for_range_app.
  destruct (for_range flatten_project ps1 ∅) as [m1|]; simpl; [|done].
  rewrite flatten_loop_fold.
  destruct (candidates ps2) as [cs|]; simpl; [|done].
  intros [= <-]. exists m1. split; [done|]. intros k e.
  apply foldl_insert_extends.
Qed.

Lemma flatten_keeps_earlier_records_witness :
  ∃ m1, flatten [svc_a] = Some m1
        ∧ ∀ k e, m1 !! k = Some e →
            ∃ r, ({[ "10.0.0.5" :=
                       mkAddressInfo "svc-a" "10.0.0.5" "RESERVED" "sub1" "vm1" ]}
                    : gmap string AddressInfo) !! k = Some r
                 ∧ extends e r.
Proof.
  apply (flatten_keeps_earlier_records [svc_a] [svc_b]).
  vm_compute. reflexivity.
Defined.

(** ** Where the fields of a merged record come from *)

Lemma mapM_elem {A B : Type} (f : A → option B) l k y :
  mapM f l = Some k → y ∈ k → ∃ x, x ∈ l ∧ f x = Some y.
Proof.
  intros H%mapM_Some_1. induction H as [|x y' l k Hxy _ IH].
  - by intros ?%elem_of_nil.
  - intros [->|Hy]%elem_of_cons.
    + exists x. split; [left|done].
    + destruct (IH Hy) as (x' & ? & ?). exists x'. split; [by right|done].
Qed.

Lemma scoped_address_ips_fmap items :
  scoped_address_ips items = compute.addr_Address <$> scoped_addresses items.
Proof.
  unfold scoped_address_ips, scoped_addresses.
  induction items as [|entry items IH]; simpl; [done|].
  rewrite fmap_app. f_equal; [|done]. by destruct (compute.Addresses entry.2).
Qed.

Lemma getName_has_no_sep s n : getName s = Some n → has_sep "/" n = false.
Proof.
  intros Hn. destruct (getName_spec s) as (n' & Hn' & Hsep & _). congruence.
Qed.

Lemma address_record_Subnet project address c :
  address_record project address = Some c → has_sep "/" (Subnet c) = false.
Proof.
  unfold address_record. intros H.
  destruct (match compute.addr_Users address with
            | Some users => _ | None => _ end) as [u|]; simpl in H; [|done].
  destruct (getName (compute.addr_Subnetwork address)) as [n|] eqn:Hn;
    simpl in H; [|done].
  injection H as <-. simpl. by eapply getName_has_no_sep.
Qed.

Lemma instance_record_Subnet project instance c :
  instance_record project instance = Some c → has_sep "/" (Subnet c) = false.
Proof.
  unfold instance_record. intros H.
  destruct (compute.NetworkInterfaces instance !! 0%nat) as [ni|]; simpl in H; [|done].
  destruct (getName (compute.ni_Subnetwork ni)) as [n|] eqn:Hn; simpl in H; [|done].
  injection H as <-. simpl. by eapply getName_has_no_sep.
Qed.

(** What is known of a record built from a snapshot. *)
Lemma project_candidates_elem p cs c :
  project_candidates p = Some cs → c ∈ cs →
  Project c = res_Project p
  ∧ (Status c ≠ "" → IP c ∈ address_ips p)
  ∧ has_sep "/" (Subnet c) = false.
Proof.
  unfold project_candidates, address_ips. intros H Hc.
  destruct (match AddressList p with None => Some [] | Some l => _ end)
    as [cs1|] eqn:H1; simpl in H; [|done].
  destruct (match InstanceList p with None => Some [] | Some l => _ end)
    as [cs2|] eqn:H2; simpl in H; [|done].
  injection H as <-. apply elem_of_app in Hc as [Hc|Hc].
  - destruct (AddressList p) as [al|]; [|injection H1 as <-; by apply elem_of_nil in Hc].
    destruct (mapM_elem _ _ _ _ H1 Hc) as (a & Ha & Hac).
    pose proof (address_record_Subnet _ _ _ Hac) as Hsub.
    apply address_record_IP in Hac as (Hip & Hp & _).
    split; [done|]. split; [|done]. intros _.
    rewrite scoped_address_ips_fmap, Hip. by apply list_elem_of_fmap_2.
  - destruct (InstanceList p) as [il|]; [|injection H2 as <-; by apply elem_of_nil in Hc].
    destruct (mapM_elem _ _ _ _ H2 Hc) as (i & Hi & Hic).
    pose proof (instance_record_Subnet _ _ _ Hic) as Hsub.
    apply instance_record_IP in Hic as (ni & _ & _ & Hp & Hs & _).
    split; [done|]. split; [|done]. by intros [].
Qed.

Lemma candidates_elem ps cs c :
  candidates ps = Some cs → c ∈ cs →
  ∃ p, p ∈ ps
       ∧ Project c = res_Project p
       ∧ (Status c ≠ "" → IP c ∈ address_ips p)
       ∧ has_sep "/" (Subnet c) = false.
Proof.
  unfold candidates. destruct (mapM project_candidates ps) as [css|] eqn:H;
    simpl; [|done].
  intros [= <-] (cs' & Hc & Hcs')%list_elem_of_join.
  destruct (mapM_elem _ _ _ _ H Hcs') as (p & Hp & Hpc).
  exists p. split; [done|]. by eapply project_candidates_elem.
Qed.

Section provenance.
Variable Q : AddressInfo → Prop.
Hypothesis Q_merge : ∀ e c, IP e = IP c → Q e → Q c → Q (merge_into e c).

(** A property of the candidates that merging keeps is a property of the
    records of the fold. *)
Lemma foldl_insert_Forall cs m :
  keyed_by_ip m →
  (∀ k r, m !! k = Some r → Q r) →
  Forall Q cs →
  ∀ k r, foldl insertAddressInfo m cs !! k = Some r → Q r.
Proof.
  intros Hk Hm Hcs. revert m Hk Hm.
  induction Hcs as [|c cs Hc _ IH]; intros m Hk Hm; simpl; [done|].
  apply IH; [by apply keyed_by_ip_insert|]. intros k r.
  destruct (decide (k = IP c)) as [->|Hne].
  - rewrite insertAddressInfo_lookup. intros [= <-].
    destruct (m !! IP c) as [e|] eqn:He; [|done].
    apply Q_merge; [by apply Hk|by eapply Hm|done].
  - rewrite insertAddressInfo_lookup_ne by done. apply Hm.
Qed.
End provenance.

Lemma flatten_records_Forall (Q : AddressInfo → Prop) ps cs m :
  (∀ e c, IP e = IP c → Q e → Q c → Q (merge_into e c)) →
  candidates ps = Some cs →
  Forall Q cs →
  flatten ps = Some m →
  ∀ k r, m !! k = Some r → Q r.
Proof.
  intros HQ Hcs HF. unfold flatten. rewrite flatten_loop_fold, Hcs. simpl.
  intros [= <-]. apply (foldl_insert_Forall Q HQ); [apply keyed_by_ip_empty| |done].
  intros k r. by rewrite lookup_empty.
Qed.

Lemma flatten_candidates ps m :
  flatten ps = Some m → ∃ cs, candidates ps = Some cs.
Proof.
  unfold flatten. rewrite flatten_loop_fold.
  destruct (candidates ps) as [cs|]; [by eexists|done].
Qed.

(** X7: the project of every merged record is the project of one of the
    snapshots, and a merged record has a status only when its IP is the
    address of an address record of some snapshot: an IP that only
    instances refer to has the empty status. *)
Theorem flatten_project_and_status_origin (ps : list projectResources)
    (m : gmap string AddressInfo) (k : string) (r : AddressInfo) :
  flatten ps = Some m →
  m !! k = Some r →
  Project r ∈ res_Project <$> ps
  ∧ (k ∉ ps ≫= address_ips → Status r = "").
Proof.
  intros Hm Hr. destruct (flatten_candidates _ _ Hm) as [cs Hcs].
  pose proof (flatten_keyed_by_ip _ _ Hm _ _ Hr) as Hk.
  enough (Project r ∈ res_Project <$> ps
          ∧ (Status r ≠ "" → IP r ∈ ps ≫= address_ips)) as [HP HS].
  { split; [done|]. intros Hnot. destruct (decide (Status r = "")); [done|].
    exfalso. apply Hnot. rewrite <- Hk. by apply HS. }
  revert k r Hr Hk.
  enough (∀ k r, m !! k = Some r →
            Project r ∈ res_Project <$> ps
            ∧ (Status r ≠ "" → IP r ∈ ps ≫= address_ips)) by eauto.
  apply (flatten_records_Forall _ ps cs m); [| done | | done].
  - intros e c Hip [He1 He2] [Hc1 Hc2]. unfold merge_into; simpl.
    split; [done|]. case_decide; [rewrite Hip|]; auto.
  - apply Forall_forall. intros c Hc.
    destruct (candidates_elem _ _ _ Hcs Hc) as (p & Hp & Hproj & Hst & _).
    split.
    + rewrite Hproj. by apply list_elem_of_fmap_2.
    + intros Hne. apply list_elem_of_bind. exists p. split; [by apply Hst|done].
Qed.

Lemma flatten_project_and_status_origin_witness :
  "svc-b" ∈ res_Project <$> [svc_b_bare]
  ∧ Status (mkAddressInfo "svc-b" "10.0.0.5" "" "sub1" "vm1") = "".
Proof.
  destruct (flatten_project_and_status_origin [svc_b_bare]
              {[ "10.0.0.5" := mkAddressInfo "svc-b" "10.0.0.5" "" "sub1" "vm1" ]}
              "10.0.0.5" (mkAddressInfo "svc-b" "10.0.0.5" "" "sub1" "vm1"))
    as [Hproject Hstatus].
  - vm_compute. reflexivity.
  - reflexivity.
  - split; [exact Hproject|]. apply Hstatus. vm_compute. apply not_elem_of_nil.
Defined.

(** X8: the subnet of a merged record never contains a slash, so the name
    [subnet ++ ".md"] of its report is a plain file name: every report is
    created in the working directory. *)
Theorem flatten_subnet_is_plain_name (ps : list projectResources)
    (m : gmap string AddressInfo) (k : string) (r : AddressInfo) :
  flatten ps = Some m →
  m !! k = Some r →
  has_sep "/" (Subnet r) = false
  ∧ has_sep "/" (Subnet r ++ ".md") = false.
Proof.
  intros Hm Hr. destruct (flatten_candidates _ _ Hm) as [cs Hcs].
  assert (has_sep "/" (Subnet r) = false) as Hsub.
  { revert k r Hr.
    apply (flatten_records_Forall (λ r, has_sep "/" (Subnet r) = false) ps cs m);
      [| done | | done].
    - intros e c _ He Hc. unfold merge_into; simpl. by case_decide.
    - apply Forall_forall. intros c Hc.
      by destruct (candidates_elem _ _ _ Hcs Hc) as (p & _ & _ & _ & ?). }
  split; [done|]. clear -Hsub.
  induction (Subnet r) as [|c s IH]; simpl in *; [done|].
  apply orb_false_iff in Hsub as [-> Hs]. simpl. by apply IH.
Qed.

Lemma flatten_subnet_is_plain_name_witness :
  has_sep "/" "sub1" = false ∧ has_sep "/" ("sub1" ++ ".md") = false.
Proof.
  apply (flatten_subnet_is_plain_name [svc_a; svc_b]
           {[ "10.0.0.5" := mkAddressInfo "svc-a" "10.0.0.5" "RESERVED" "sub1" "vm1" ]}
           "10.0.0.5" (mkAddressInfo "svc-a" "10.0.0.5" "RESERVED" "sub1" "vm1")).
  - vm_compute. reflexivity.
  - reflexivity.
Defined.

(** ** The order of the snapshots *)

Lemma flatten_is_Some ps :
  is_Some (flatten ps) ↔ forallb indexes_in_range ps = true.
Proof. apply for_range_is_Some_iff. intros m p. apply flatten_project_is_Some. Qed.

Lemma forallb_Permutation {A : Type} (q : A → bool) l l' :
  l ≡ₚ l' → forallb q l = forallb q l'.
Proof.
  induction 1 as [|x l l' _ IH|x y l|l1 l2 l3 _ IH1 _ IH2]; simpl.
  - done.
  - by rewrite IH.
  - by destruct (q x), (q y).
  - congruence.
Qed.

(** X9: whether [flatten] panics, and which IPs its map holds, do not depend
    on the order in which the snapshots arrive. *)
Theorem flatten_keys_order_independent (ps ps' : list projectResources) :
  ps ≡ₚ ps' →
  (is_Some (flatten ps) ↔ is_Some (flatten ps'))
  ∧ ∀ m m', flatten ps = Some m → flatten ps' = Some m' → dom m = dom m'.
Proof.
  intros Hperm. split.
  - by rewrite !flatten_is_Some, (forallb_Permutation _ _ _ Hperm).
  - intros m m' Hm Hm'. rewrite (flatten_dom _ _ Hm), (flatten_dom _ _ Hm').
    unfold referenced_ips. by rewrite Hperm.
Qed.

Lemma flatten_keys_order_independent_witness :
  (is_Some (flatten [svc_a; svc_b]) ↔ is_Some (flatten [svc_b; svc_a]))
  ∧ ∀ m m', flatten [svc_a; svc_b] = Some m → flatten [svc_b; svc_a] = Some m' →
            dom m = dom m'.
Proof.
  apply (flatten_keys_order_independent [svc_a; svc_b] [svc_b; svc_a]).
  apply Permutation_swap.
Defined.

Lemma mapM_Permutation {A B : Type} (f : A → option B) l l' :
  l ≡ₚ l' → same_up_to_order (mapM f l) (mapM f l').
Proof.
  induction 1 as [|x l l' _ IH|x y l|l1 l2 l3 _ IH1 _ IH2]; simpl.
  - done.
  - destruct (f x); simpl; [|done].
    destruct (mapM f l), (mapM f l'); simpl in *; try done. by constructor.
  - destruct (f x), (f y); simpl; try done.
    destruct (mapM f l); simpl; [apply Permutation_swap|done].
  - destruct (mapM f l1), (mapM f l2), (mapM f l3); simpl in *; try done.
    by etrans.
Qed.

Lemma candidates_Permutation ps ps' :
  ps ≡ₚ ps' → same_up_to_order (candidates ps) (candidates ps').
Proof.
  intros H. apply (mapM_Permutation project_candidates) in H. unfold candidates.
  destruct (mapM project_candidates ps), (mapM project_candidates ps');
    simpl in *; try done.
  by rewrite H.
Qed.

Lemma mapM_address_record_IP project addresses cs :
  mapM (address_record project) addresses = Some cs →
  IP <$> cs = compute.addr_Address <$> addresses.
Proof.
  intros H%mapM_Some_1. induction H as [|a c l k Hac _ IH]; simpl; [done|].
  apply address_record_IP in Hac as [-> _]. by f_equal.
Qed.

Lemma mapM_instance_record_IP project instances cs :
  mapM (instance_record project) instances = Some cs →
  IP <$> cs = instances ≫= first_interface_ip.
Proof.
  intros H%mapM_Some_1. induction H as [|i c l k Hic _ IH]; simpl; [done|].
  unfold first_interface_ip at 1.
  apply instance_record_IP in Hic as (ni & -> & -> & _). simpl. by f_equal.
Qed.

Lemma scoped_instance_ips_bind items :
  scoped_instance_ips items = scoped_instances items ≫= first_interface_ip.
Proof.
  unfold scoped_instance_ips, scoped_instances.
  induction items as [|entry items IH]; simpl; [done|].
  rewrite bind_app. f_equal; [|done]. by destruct (compute.Instances entry.2).
Qed.

Lemma project_candidates_IP p cs :
  project_candidates p = Some cs →
  IP <$> cs = (address_ips p ++ instance_ips p)%list.
Proof.
  unfold project_candidates, address_ips, instance_ips. intros H.
  destruct (match AddressList p with None => Some [] | Some l => _ end)
    as [cs1|] eqn:H1; simpl in H; [|done].
  destruct (match InstanceList p with None => Some [] | Some l => _ end)
    as [cs2|] eqn:H2; simpl in H; [|done].
  injection H as <-. rewrite fmap_app. f_equal.
  - destruct (AddressList p) as [al|]; [|by injection H1 as <-].
    rewrite scoped_address_ips_fmap. by eapply mapM_address_record_IP.
  - destruct (InstanceList p) as [il|]; [|by injection H2 as <-].
    rewrite scoped_instance_ips_bind. by eapply mapM_instance_record_IP.
Qed.

Lemma candidates_IP ps cs :
  candidates ps = Some cs → IP <$> cs = referenced_ips ps.
Proof.
  unfold candidates, referenced_ips.
  destruct (mapM project_candidates ps) as [css|] eqn:H; simpl; [|done].
  intros [= <-]. apply mapM_Some_1 in H.
  induction H as [|p cs' l k Hp _ IH]; simpl; [done|].
  rewrite fmap_app, IH. f_equal. by apply project_candidates_IP.
Qed.

(** Candidates with pairwise different IPs can be folded in any order. *)
Lemma foldl_insert_Permutation cs cs' m :
  cs ≡ₚ cs' → NoDup (IP <$> cs) →
  foldl insertAddressInfo m cs = foldl insertAddressInfo m cs'.
Proof.
  intros H. revert m.
  induction H as [|c cs cs' _ IH|c1 c2 cs|cs1 cs2 cs3 H12 IH1 _ IH2];
    intros m Hnd; simpl.
  - done.
  - apply IH. by apply NoDup_cons in Hnd as [_ ?].
  - f_equal. apply insertAddressInfo_comm.
    simpl in Hnd. apply NoDup_cons in Hnd as [Hnot _].
    intros Heq. apply Hnot. rewrite Heq. left.
  - rewrite IH1 by done. apply IH2. by rewrite <- H12.
Qed.

(** X10: when the address and instance records of the snapshots refer to
    pairwise different IPs, [flatten] returns the same map for every order
    of the snapshots: only an IP referred to more than once makes the result
    depend on the order of arrival. *)
Theorem flatten_order_independent (ps ps' : list projectResources) :
  NoDup (referenced_ips ps) →
  ps ≡ₚ ps' →
  flatten ps = flatten ps'.
Proof.
  intros Hnd Hperm. unfold flatten. rewrite !flatten_loop_fold.
  pose proof (candidates_Permutation _ _ Hperm) as Hcs.
  destruct (candidates ps) as [cs|] eqn:H1, (candidates ps') as [cs'|] eqn:H2;
    simpl in *; try done.
  f_equal. apply foldl_insert_Permutation; [done|].
  by rewrite (candidates_IP _ _ H1).
Qed.

Lemma flatten_order_independent_witness :
  flatten [svc_a; svc_c] = flatten [svc_c; svc_a].
Proof.
  apply flatten_order_independent.
  - vm_compute. repeat constructor; set_solver.
  - apply Permutation_swap.
Defined.

(** The order matters when an IP is referred to twice. *)
Lemma flatten_order_matters : flatten [svc_a; svc_b] ≠ flatten [svc_b; svc_a].
Proof. vm_compute. discriminate. Qed.

(** ** Snapshots that bring nothing *)

Lemma flatten_skip ps1 p ps2 :
  project_candidates p = Some [] →
  flatten (ps1 ++ p :: ps2) = flatten (ps1 ++ ps2).
Proof.
  intros Hp. unfold flatten. rewrite !for_range_app. simpl.
  destruct (for_range flatten_project ps1 ∅) as [m1|]; simpl; [|done].
  by rewrite flatten_project_fold, Hp.
Qed.

(** X11: a project for which both queries failed changes nothing: the
    snapshot [getResources] returns for it can be dropped from the list, at
    any position, without changing what [flatten] returns. *)
Theorem failed_project_contributes_nothing (service : Service) (project : string)
    (e1 e2 : string) (ps1 ps2 : list projectResources) :
  Addresses_AggregatedList service project = Err e1 →
  Instances_AggregatedList service project = Err e2 →
  flatten (ps1 ++ getResources project service :: ps2) = flatten (ps1 ++ ps2).
Proof.
  intros Ha Hi. apply flatten_skip.
  unfold project_candidates, getResources. by rewrite Ha, Hi.
Qed.

(** ** The order used for sorting *)

Lemma bytes_Compare_refl a : bytes_Compare a a = 0%Z.
Proof. induction a as [|x a IH]; simpl; [done|]. by rewrite N.compare_refl. Qed.

Lemma bytes_Compare_eq a b : bytes_Compare a b = 0%Z → a = b.
Proof.
  revert b. induction a as [|x a IH]; intros [|y b]; simpl; try done.
  destruct (N.compare_spec (Byte.to_N x) (Byte.to_N y)) as [Hxy|_|_]; try done.
  intros Hab. f_equal; [|by apply IH].
  apply (f_equal Byte.of_N) in Hxy. rewrite !Byte.of_to_N in Hxy. congruence.
Qed.

(** X12: the closure handed to [sort.Slice] is a strict weak ordering of the
    records, whatever [net.ParseIP] answers: it is irreflexive, asymmetric
    and transitive, and so is being unordered by it; two records it does not
    order have the same parsed IP. *)
Theorem less_strict_weak_order (ParseIP : string → list byte) :
  (∀ x, less ParseIP x x = false)
  ∧ (∀ x y, less ParseIP x y = true → less ParseIP y x = false)
  ∧ (∀ x y z, less ParseIP x y = true → less ParseIP y z = true →
              less ParseIP x z = true)
  ∧ (∀ x y z, less ParseIP x y = false → less ParseIP y z = false →
              less ParseIP x z = false)
  ∧ (∀ x y, less ParseIP x y = false → less ParseIP y x = false →
            ParseIP (IP x) = ParseIP (IP y)).
Proof.
  unfold less. split; [|split; [|split; [|split]]].
  - intros x. rewrite bytes_Compare_refl. by apply bool_decide_eq_false.
  - intros x y Hxy%bool_decide_eq_true. apply bool_decide_eq_false.
    rewrite bytes_Compare_flip. lia.
  - intros x y z Hxy%bool_decide_eq_true Hyz%bool_decide_eq_true.
    apply bool_decide_eq_true.
    destruct (Z.lt_ge_cases (bytes_Compare (ParseIP (IP x)) (ParseIP (IP z))) 0)
      as [|Hxz]; [done|]. exfalso.
    pose proof (bytes_Compare_le_trans (ParseIP (IP z)) (ParseIP (IP x))
                  (ParseIP (IP y))) as Ht.
    rewrite (bytes_Compare_flip (ParseIP (IP x)) (ParseIP (IP z))) in Ht.
    rewrite (bytes_Compare_flip (ParseIP (IP y)) (ParseIP (IP z))) in Ht. lia.
  - intros x y z Hxy%bool_decide_eq_false Hyz%bool_decide_eq_false.
    apply bool_decide_eq_false.
    pose proof (bytes_Compare_le_trans (ParseIP (IP z)) (ParseIP (IP y))
                  (ParseIP (IP x))) as Ht.
    rewrite (bytes_Compare_flip (ParseIP (IP y)) (ParseIP (IP z))) in Ht.
    rewrite (bytes_Compare_flip (ParseIP (IP x)) (ParseIP (IP y))) in Ht.
    rewrite (bytes_Compare_flip (ParseIP (IP x)) (ParseIP (IP z))) in Ht. lia.
  - intros x y Hxy%bool_decide_eq_false Hyx%bool_decide_eq_false.
    apply bytes_Compare_eq. rewrite bytes_Compare_flip in Hyx. lia.
Qed.

(** ** A table does not depend on the order of its input *)

Lemma NoDup_fmap_inj {A B : Type} (f : A → B) l x y :
  NoDup (f <$> l) → x ∈ l → y ∈ l → f x = f y → x = y.
Proof.
  induction l as [|z l IH]; simpl; [by intros _ ?%elem_of_nil|].
  intros [Hz Hl]%NoDup_cons [->|Hx]%elem_of_cons [->|Hy]%elem_of_cons Heq.
  - done.
  - exfalso. apply Hz. rewrite Heq. by apply list_elem_of_fmap_2.
  - exfalso. apply Hz. rewrite <- Heq. by apply list_elem_of_fmap_2.
  - by apply IH.
Qed.

Lemma ip_le_antisym ParseIP x y :
  ip_le ParseIP x y → ip_le ParseIP y x → ParseIP (IP x) = ParseIP (IP y).
Proof.
  unfold ip_le. intros Hxy Hyx. apply bytes_Compare_eq.
  rewrite bytes_Compare_flip in Hyx. lia.
Qed.

Lemma sort_by_ip_unique ParseIP l l' :
  l ≡ₚ l' →
  NoDup ((λ r, ParseIP (IP r)) <$> l) →
  sort_Slice (less ParseIP) l = sort_Slice (less ParseIP) l'.
Proof.
  intros Hperm Hnd.
  apply (StronglySorted_unique_strong (ip_le ParseIP));
    [|apply sort_by_ip_StronglySorted..|].
  - intros x y Hx Hy Hxy Hyx.
    rewrite sort_Slice_Permutation in Hx.
    rewrite sort_Slice_Permutation, <- Hperm in Hy.
    apply (NoDup_fmap_inj (λ r, ParseIP (IP r)) l); [done..|].
    by apply ip_le_antisym.
  - by rewrite !sort_Slice_Permutation.
Qed.

(** X13: the table of a subnet does not depend on the order in which its
    records are handed to [writeToFile], as long as their parsed IPs are
    pairwise different: the outcome and the files are the same for every
    rearrangement of the list. *)
Theorem writeToFile_input_order_irrelevant (ParseIP : string → list byte)
    (fs : FileSystem) (subnet : string) (l l' : list AddressInfo)
    (disk : gmap string Content) :
  l ≡ₚ l' →
  NoDup ((λ r, ParseIP (IP r)) <$> l) →
  writeToFile ParseIP fs subnet l disk = writeToFile ParseIP fs subnet l' disk.
Proof.
  intros Hperm Hnd. unfold writeToFile.
  by rewrite (sort_by_ip_unique ParseIP l l' Hperm Hnd).
Qed.

Lemma writeToFile_input_order_irrelevant_witness :
  writeToFile parseIPv4 reliable "sub1"
    [mkAddressInfo "svc-a" "10.0.0.10" "" "sub1" "vm1";
     mkAddressInfo "svc-a" "10.0.0.9" "" "sub1" "vm2"] ∅
  = writeToFile parseIPv4 reliable "sub1"
      [mkAddressInfo "svc-a" "10.0.0.9" "" "sub1" "vm2";
       mkAddressInfo "svc-a" "10.0.0.10" "" "sub1" "vm1"] ∅.
Proof.
  apply writeToFile_input_order_irrelevant.
  - apply Permutation_swap.
  - vm_compute. apply NoDup_cons. split.
    + intros Hin%list_elem_of_singleton. discriminate Hin.
    + apply NoDup_singleton.
Defined.

(** ** What [writeToFile] does to the other files *)

(** X14: [writeToFile] touches the file of its subnet only: every other
    file is as before, however the call ends; when the call returns, the
    file of the subnet holds the heading and one row per record, whatever it
    held before. *)
Theorem writeToFile_frame (ParseIP : string → list byte) (fs : FileSystem)
    (subnet : string) (l : list AddressInfo) (disk : gmap string Content) :
  (∀ name, name ≠ subnet ++ ".md" →
     (writeToFile ParseIP fs subnet l disk).1 !! name = disk !! name)
  ∧ (sink_fails fs subnet = false →
       writeToFile ParseIP fs subnet l disk
       = (<[subnet ++ ".md" := report ParseIP subnet l]> disk, Return tt)
       ∧ length (table (report ParseIP subnet l)) = length l).
Proof.
  unfold writeToFile, sink_fails. split.
  - intros name Hname.
    destruct (Create_fails fs _); [done|].
    destruct (WriteString_fails fs _); simpl; by rewrite ?lookup_insert_ne.
  - intros [-> ->]%orb_false_iff. rewrite insert_insert_eq. split; [done|].
    unfold report; simpl. rewrite length_fmap.
    by rewrite (sort_Slice_Permutation (less ParseIP) l).
Qed.

Lemma writeToFile_frame_witness :
  writeToFile parseIPv4 reliable "sub1"
    [mkAddressInfo "svc-a" "10.0.0.9" "" "sub1" "vm2"] ∅
  = (<["sub1" ++ ".md" :=
         report parseIPv4 "sub1" [mkAddressInfo "svc-a" "10.0.0.9" "" "sub1" "vm2"]]> ∅,
     Return tt)
  ∧ length (table (report parseIPv4 "sub1"
                     [mkAddressInfo "svc-a" "10.0.0.9" "" "sub1" "vm2"]))
    = length [mkAddressInfo "svc-a" "10.0.0.9" "" "sub1" "vm2"].
Proof.
  apply (proj2 (writeToFile_frame parseIPv4 reliable "sub1"
                  [mkAddressInfo "svc-a" "10.0.0.9" "" "sub1" "vm2"] ∅)).
  reflexivity.
Defined.

Lemma failed_project_contributes_nothing_witness :
  flatten ([svc_a] ++ getResources "svc-a" queries_down :: [svc_b])
  = flatten ([svc_a] ++ [svc_b]).
Proof.
  apply (failed_project_contributes_nothing queries_down "svc-a"
           "googleapi: Error 403" "googleapi: Error 403"); reflexivity.
Defined.


(** ** The files of a run in which nothing fails *)

Lemma string_app_inj_r (s1 s2 t : string) : s1 ++ t = s2 ++ t → s1 = s2.
Proof.
  revert s2. induction s1 as [|c s1 IH]; intros [|c' s2] Heq; simpl in *.
  - done.
  - apply (f_equal String.length) in Heq.
    rewrite ?string_length_append in Heq. simpl in Heq.
    rewrite ?string_length_append in Heq. lia.
  - apply (f_equal String.length) in Heq.
    rewrite ?string_length_append in Heq. simpl in Heq.
    rewrite ?string_length_append in Heq. lia.
  - injection Heq as -> Heq. f_equal. by apply IH.
Qed.

Lemma writeAll_loop_ok ParseIP fs entries disk :
  (∀ entry, entry ∈ entries → entry.1 ≠ "" → sink_fails fs entry.1 = false) →
  writeAll_loop ParseIP fs entries disk
  = (foldl (write_step ParseIP) disk entries, Return tt).
Proof.
  revert disk. induction entries as [|[subnet l] entries IH]; intros disk Hok;
    simpl; [done|].
  assert (∀ entry, entry ∈ entries → entry.1 ≠ "" → sink_fails fs entry.1 = false)
    as Hrest by (intros entry ?; apply Hok; by right).
  unfold write_step at 2. simpl. destruct (decide (subnet ≠ "")) as [Hne|_].
  - assert ((subnet, l) ∈ (subnet, l) :: entries) as Hhead by left.
    pose proof (Hok (subnet, l) Hhead Hne) as Hf. simpl in Hf.
    unfold writeToFile. unfold sink_fails in Hf.
    apply orb_false_iff in Hf as [-> ->]. rewrite insert_insert_eq.
    by apply IH.
  - by apply IH.
Qed.

Lemma foldl_write_step_frame ParseIP entries disk name :
  (∀ entry, entry ∈ entries → entry.1 ≠ "" → name ≠ entry.1 ++ ".md") →
  foldl (write_step ParseIP) disk entries !! name = disk !! name.
Proof.
  revert disk. induction entries as [|entry entries IH]; intros disk Hname;
    simpl; [done|].
  rewrite IH by (intros e ?; apply Hname; by right).
  unfold write_step. case_decide; [|done].
  apply lookup_insert_ne. intros Heq. by apply (Hname entry); [left| |].
Qed.

Lemma foldl_write_step_lookup ParseIP entries disk k l :
  NoDup entries.*1 → (k, l) ∈ entries → k ≠ "" →
  foldl (write_step ParseIP) disk entries !! (k ++ ".md")
  = Some (report ParseIP k l).
Proof.
  revert disk. induction entries as [|entry entries IH]; intros disk Hnd Hin Hk;
    simpl in *; [by apply elem_of_nil in Hin|].
  apply NoDup_cons in Hnd as [Hfresh Hnd].
  apply elem_of_cons in Hin as [<-|Hin]; [|by apply IH].
  rewrite foldl_write_step_frame.
  - unfold write_step. simpl. rewrite decide_True by done. apply lookup_insert_eq.
  - intros e He _ Heq%string_app_inj_r. apply Hfresh.
    apply list_elem_of_fmap. by exists e.
Qed.

Section files.
Context `{MapOrder}.

Lemma range_map_NoDup {V : Type} (g : gmap string V) : NoDup (range_map g).*1.
Proof. rewrite range_map_perm. apply NoDup_fst_map_to_list. Qed.

Lemma elem_of_range_map {V : Type} (g : gmap string V) k v :
  (k, v) ∈ range_map g ↔ g !! k = Some v.
Proof. rewrite range_map_perm. apply elem_of_map_to_list. Qed.

Lemma writeAll_ok ParseIP fs g disk :
  (∀ k l, g !! k = Some l → k ≠ "" → sink_fails fs k = false) →
  writeAll ParseIP fs g disk
  = (foldl (write_step ParseIP) disk (range_map g), Return tt).
Proof.
  intros Hok. unfold writeAll. apply writeAll_loop_ok.
  intros [k l] Hin%elem_of_range_map Hk. by eapply Hok.
Qed.

Lemma writeAll_ok_lookup ParseIP g disk k l :
  g !! k = Some l → k ≠ "" →
  foldl (write_step ParseIP) disk (range_map g) !! (k ++ ".md")
  = Some (report ParseIP k l).
Proof.
  intros Hkl Hk. apply foldl_write_step_lookup; [apply range_map_NoDup| |done].
  by apply elem_of_range_map.
Qed.

Lemma writeAll_ok_frame ParseIP g disk name :
  (∀ k, is_Some (g !! k) → k ≠ "" → name ≠ k ++ ".md") →
  foldl (write_step ParseIP) disk (range_map g) !! name = disk !! name.
Proof.
  intros Hname. apply foldl_write_step_frame.
  intros [k l] Hin%elem_of_range_map Hk. simpl in *. apply Hname; [by eexists|done].
Qed.

(** X15: when no file of a non-empty subnet fails, [writeAll] returns, and
    it has written exactly one file per non-empty key of the grouping:
    the file [k.md] holds the report of the group of [k], and every file
    whose name is not of this form is as before. *)
Theorem writeAll_one_file_per_subnet (ParseIP : string → list byte)
    (fs : FileSystem) (g : gmap string (list AddressInfo))
    (disk : gmap string Content) :
  (∀ k l, g !! k = Some l → k ≠ "" → sink_fails fs k = false) →
  ∃ disk',
    writeAll ParseIP fs g disk = (disk', Return tt)
    ∧ (∀ k l, g !! k = Some l → k ≠ "" →
         disk' !! (k ++ ".md") = Some (report ParseIP k l))
    ∧ (∀ name, (∀ k, is_Some (g !! k) → k ≠ "" → name ≠ k ++ ".md") →
         disk' !! name = disk !! name).
Proof.
  intros Hok. eexists. split; [by apply writeAll_ok|]. split.
  - intros k l. apply writeAll_ok_lookup.
  - intros name. apply writeAll_ok_frame.
Qed.
End files.

Lemma writeAll_one_file_per_subnet_witness :
  ∃ disk',
    @writeAll canonical_order parseIPv4 reliable
      {[ "sub1" := [mkAddressInfo "svc-a" "10.0.0.9" "" "sub1" "vm2"] ]} ∅
    = (disk', Return tt).
Proof.
  destruct (@writeAll_one_file_per_subnet canonical_order parseIPv4 reliable
              {[ "sub1" := [mkAddressInfo "svc-a" "10.0.0.9" "" "sub1" "vm2"] ]} ∅)
    as (disk' & Hw & _).
  - intros k l _ _. reflexivity.
  - exists disk'. exact Hw.
Defined.

(** ** The reports do not depend on the iteration order of the maps *)

Lemma NoDup_fmap_filter {A B : Type} (f : A → B) (P : A → Prop)
    `{∀ x, Decision (P x)} l :
  NoDup (f <$> l) → NoDup (f <$> filter P l).
Proof.
  induction l as [|x l IH]; simpl; [done|].
  intros [Hx Hl]%NoDup_cons. rewrite filter_cons. case_decide; simpl; [|by apply IH].
  apply NoDup_cons. split; [|by apply IH].
  intros (y & Hxy & [_ Hy]%list_elem_of_filter)%list_elem_of_fmap.
  apply Hx. apply list_elem_of_fmap. by exists y.
Qed.

Lemma group_by_subnet_orders (o1 o2 : MapOrder) m k l1 :
  @group_by_subnet o1 m !! k = Some l1 →
  ∃ l2, @group_by_subnet o2 m !! k = Some l2 ∧ l1 ≡ₚ l2.
Proof.
  intros [Hne ->]%(@group_by_subnet_lookup o1).
  assert (filter (λ r, Subnet r = k) (@visited o1 m)
          ≡ₚ filter (λ r, Subnet r = k) (@visited o2 m)) as Hperm.
  { by rewrite (@visited_records o1), (@visited_records o2). }
  eexists. split; [|exact Hperm].
  apply (@group_by_subnet_lookup o2). split; [|done].
  intros Hnil. rewrite Hnil in Hperm. by apply Permutation_nil_r in Hperm.
Qed.

Lemma group_by_subnet_parsed_NoDup (o : MapOrder) (ParseIP : string → list byte)
    (m : gmap string AddressInfo) k l :
  NoDup ((λ r, ParseIP (IP r)) <$> records m) →
  @group_by_subnet o m !! k = Some l →
  NoDup ((λ r, ParseIP (IP r)) <$> l).
Proof.
  intros Hnd [_ ->]%(@group_by_subnet_lookup o).
  apply NoDup_fmap_filter. by rewrite (@visited_records o).
Qed.

(** X16: the files of a run do not depend on the order in which Go iterates
    over the merged map and over the grouping.  When the parsed IPs of the
    merged records are pairwise different and no file of a subnet of a
    merged record fails, grouping and [writeAll] under one iteration order
    leave the same files, with the same outcome, as under any other. *)
Theorem reports_independent_of_map_order (o1 o2 : MapOrder)
    (ParseIP : string → list byte) (fs : FileSystem)
    (m : gmap string AddressInfo) :
  NoDup ((λ r, ParseIP (IP r)) <$> records m) →
  (∀ r, r ∈ records m → Subnet r ≠ "" → sink_fails fs (Subnet r) = false) →
  @writeAll o1 ParseIP fs (@group_by_subnet o1 m) ∅
  = @writeAll o2 ParseIP fs (@group_by_subnet o2 m) ∅.
Proof.
  intros Hnd Hfs.
  assert (∀ o : MapOrder, ∀ k l, @group_by_subnet o m !! k = Some l → k ≠ "" →
            sink_fails fs k = false) as Hok.
  { intros o k l Hkl Hk.
    destruct (@group_by_subnet_group o m k l Hkl) as [Hne Hall].
    destruct l as [|r l]; [done|].
    destruct (Hall r ltac:(by left)) as [Hr <-]. by apply Hfs. }
  rewrite (@writeAll_ok o1), (@writeAll_ok o2) by apply Hok.
  f_equal. apply map_eq. intros name.
  destruct (decide (Exists (λ entry : string * list AddressInfo,
                              entry.1 ≠ "" ∧ name = entry.1 ++ ".md")
                           (map_to_list (@group_by_subnet o1 m))))
    as [Hex|Hnex].
  - apply Exists_exists in Hex as ([k l1] & Hkl1%elem_of_map_to_list & Hk & ->).
    simpl in *.
    destruct (group_by_subnet_orders o1 o2 m k l1 Hkl1) as (l2 & Hkl2 & Hperm).
    rewrite (@writeAll_ok_lookup o1 _ _ _ k l1), (@writeAll_ok_lookup o2 _ _ _ k l2)
      by done.
    unfold report. do 3 f_equal. apply sort_by_ip_unique; [done|].
    exact (group_by_subnet_parsed_NoDup o1 ParseIP m k l1 Hnd Hkl1).
  - rewrite (@writeAll_ok_frame o1), (@writeAll_ok_frame o2); [done| |].
    + intros k [l2 Hkl2] Hk ->.
      destruct (group_by_subnet_orders o2 o1 m k l2 Hkl2) as (l1 & Hkl1 & _).
      apply Hnex, Exists_exists. exists (k, l1).
      split; [by apply elem_of_map_to_list|done].
    + intros k [l1 Hkl1] Hk ->.
      apply Hnex, Exists_exists. exists (k, l1).
      split; [by apply elem_of_map_to_list|done].
Qed.

Lemma reports_independent_of_map_order_witness :
  @writeAll canonical_order parseIPv4 reliable
    (@group_by_subnet canonical_order svc_c_merged) ∅
  = @writeAll reverse_order parseIPv4 reliable
      (@group_by_subnet reverse_order svc_c_merged) ∅.
Proof.
  apply reports_independent_of_map_order.
  - vm_compute. apply NoDup_cons. split.
    + intros Hin%list_elem_of_singleton. discriminate Hin.
    + apply NoDup_singleton.
  - intros r _ _. reflexivity.
Defined.

(** ** The grouping loses no record *)

Lemma grouped_insert_fresh (g : gmap string (list AddressInfo)) k rs :
  g !! k = None → grouped (<[k := rs]> g) ≡ₚ rs ++ grouped g.
Proof. intros Hk. unfold grouped. by rewrite map_to_list_insert by done. Qed.

Lemma grouped_append_by_subnet g x :
  grouped (append_by_subnet g x) ≡ₚ x :: grouped g.
Proof.
  unfold append_by_subnet. destruct (g !! Subnet x) as [rs|] eqn:Hk; simpl.
  - assert (grouped g ≡ₚ rs ++ grouped (delete (Subnet x) g)) as Hg.
    { rewrite <- grouped_insert_fresh by apply lookup_delete_eq.
      by rewrite insert_delete_id. }
    rewrite <- insert_delete_eq.
    rewrite grouped_insert_fresh by apply lookup_delete_eq. rewrite Hg.
    by rewrite (Permutation_app_comm rs [x]).
  - by rewrite grouped_insert_fresh by done.
Qed.

Lemma grouped_foldl g l :
  grouped (foldl append_by_subnet g l) ≡ₚ l ++ grouped g.
Proof.
  revert g. induction l as [|x l IH]; intros g; simpl; [done|].
  rewrite IH, grouped_append_by_subnet. by rewrite Permutation_middle.
Qed.

(** X17: the grouping loop files every record of the merged map exactly
    once: the groups of all keys together, the empty key included, are a
    rearrangement of the records of the map, so their lengths add up to its
    size, and each group lists its records in the order of the visit. *)
Theorem group_by_subnet_keeps_all `{MapOrder} (m : gmap string AddressInfo) :
  grouped (group_by_subnet m) ≡ₚ records m
  ∧ length (grouped (group_by_subnet m)) = size m
  ∧ ∀ k rs, group_by_subnet m !! k = Some rs →
            rs = filter (λ r, Subnet r = k) (visited m).
Proof.
  assert (grouped (group_by_subnet m) ≡ₚ records m) as Hperm.
  { unfold group_by_subnet. rewrite grouped_foldl. fold (visited m).
    rewrite visited_records. unfold grouped. rewrite map_to_list_empty. simpl.
    by rewrite app_nil_r. }
  split; [done|]. split.
  - rewrite Hperm. unfold records. by rewrite length_fmap, length_map_to_list.
  - by intros k rs [_ ?]%group_by_subnet_lookup.
Qed.

(** ** Whole runs *)



Lemma gathered_in_range hostProject service schedule res output :
  getServiceProjects hostProject service = Ok res →
  getAllResources hostProject service schedule = Return output →
  forallb indexes_in_range output
  = forallb indexes_in_range
      ((λ resource, getResources (Id resource) service) <$> Resources res).
Proof.
  intros Hres Hout.
  destruct (getAllResources_returns hostProject service schedule res Hres)
    as (output' & Hout' & Hperm).
  rewrite Hout in Hout'. injection Hout' as <-.
  by apply forallb_Permutation.
Qed.

(** X19: when a snapshot of an enumerated project has an instance without
    network interface, or an address with a present and empty users list,
    the run panics, whatever the order in which the snapshots arrive, and no
    file has been written. *)
Theorem main_panics_before_writing (w : World) (hostProject : string)
    (service : Service) (res : ProjectsGetXpnResources) :
  Args w !! 1%nat = Some hostProject →
  client w = Ok service →
  getServiceProjects hostProject service = Ok res →
  forallb indexes_in_range
    ((λ resource, getResources (Id resource) service) <$> Resources res) = false →
  main w = (∅, Panic).
Proof.
  intros Harg Hc Hres Hbad.
  destruct (getAllResources_returns hostProject service (schedule w) res Hres)
    as (output & Hout & _).
  unfold main, initClient.
  rewrite bool_decide_eq_false_2 by (apply lookup_lt_Some in Harg; lia).
  rewrite Harg, Hc, Hout. unfold extractFields.
  destruct (flatten output) as [m|] eqn:Hm; [|done].
  exfalso. assert (is_Some (flatten output)) as Hsome by by eexists.
  apply flatten_is_Some in Hsome.
  rewrite (gathered_in_range _ _ _ _ _ Hres Hout) in Hsome. congruence.
Qed.

(** A service whose only project has an instance without network interface. *)
Lemma main_panics_before_writing_witness :
  main (mkWorld ["gcp-ips"; "H"]
          (Ok (mkService
                 (λ _, Ok (mkProjectsGetXpnResources [mkXpnResourceId "svc-a"]))
                 (λ _, Err "googleapi: Error 403")
                 (λ _, Ok (compute.mkInstanceAggregatedList
                             [("zones/us-east1-b",
                               compute.mkInstancesScopedList
                                 (Some [compute.mkInstance "vm1" []]))]))))
          [] canonical_order parseIPv4 reliable)
  = (∅, Panic).
Proof.
  eapply main_panics_before_writing; reflexivity.
Defined.

(** X20: when the argument is there, the client and the enumeration
    succeed, every index of [flatten] is in range and no file fails, the run
    returns; the map [flatten] built from the snapshots received has, for
    each of its records with a subnet, a row in the file of that subnet:
    the file [subnet.md] exists, carries the heading of the subnet and the
    four column titles, and its table contains the row of the record. *)
Theorem main_reports_every_record (w : World) (hostProject : string)
    (service : Service) (res : ProjectsGetXpnResources) :
  Args w !! 1%nat = Some hostProject →
  client w = Ok service →
  getServiceProjects hostProject service = Ok res →
  forallb indexes_in_range
    ((λ resource, getResources (Id resource) service) <$> Resources res) = true →
  (∀ subnet, sink_fails (files w) subnet = false) →
  ∃ resources m disk,
    getAllResources hostProject service (schedule w) = Return resources
    ∧ flatten resources = Some m
    ∧ main w = (disk, Return tt)
    ∧ ∀ r, r ∈ records m → Subnet r ≠ "" →
        ∃ content,
          disk !! (Subnet r ++ ".md") = Some content
          ∧ heading content = "# Reserved IPs for " ++ Subnet r ++ newline
          ∧ columns content = ["IP"; "GCP Project"; "Status"; "User"]
          ∧ row r ∈ table content.
Proof.
  intros Harg Hc Hres Hok Hfs.
  destruct (getAllResources_returns hostProject service (schedule w) res Hres)
    as (output & Hout & Hperm).
  assert (is_Some (flatten output)) as [m Hm].
  { apply flatten_is_Some. by rewrite (gathered_in_range _ _ _ _ _ Hres Hout). }
  exists output, m. eexists. split; [done|]. split; [done|].
  rewrite (main_reaches_writeAll w hostProject service output
             (@group_by_subnet (order w) m) Harg Hc Hout)
    by (unfold extractFields; by rewrite Hm).
  rewrite (@writeAll_ok (order w)) by (intros; apply Hfs).
  split; [done|]. intros r Hr Hsub.
  destruct (@group_by_subnet_member (order w) m r Hr) as (rs & Hrs & Hin).
  exists (report (ParseIP w) (Subnet r) rs).
  split; [by apply (@writeAll_ok_lookup (order w))|].
  split; [done|]. split; [done|]. simpl.
  apply list_elem_of_fmap_2. by rewrite sort_Slice_Permutation.
Qed.

Lemma main_reports_every_record_witness :
  ∃ resources m disk,
    getAllResources "H" instances_down [] = Return resources
    ∧ flatten resources = Some m
    ∧ main (mkWorld ["gcp-ips"; "H"] (Ok instances_down) [] canonical_order
              parseIPv4 reliable)
      = (disk, Return tt).
Proof.
  destruct (main_reports_every_record
              (mkWorld ["gcp-ips"; "H"] (Ok instances_down) [] canonical_order
                 parseIPv4 reliable)
              "H" instances_down
              (mkProjectsGetXpnResources [mkXpnResourceId "svc-a"]))
    as (resources & m & disk & H1 & H2 & H3 & _); try reflexivity.
  exists resources, m, disk. split; [exact H1|]. split; [exact H2 | exact H3].
Defined.

(** ** Every source record and the first of them *)

Lemma foldl_insert_keeps_holds c cs m :
  holds c m → holds c (foldl insertAddressInfo m cs).
Proof.
  revert m. induction cs as [|c' cs IH]; intros m Hm; simpl; [done|].
  by apply IH, holds_insert.
Qed.

Lemma foldl_insert_holds c cs m :
  keyed_by_ip m → c ∈ cs → holds c (foldl insertAddressInfo m cs).
Proof.
  revert m. induction cs as [|c' cs IH]; intros m Hk Hc; simpl.
  - by apply elem_of_nil in Hc.
  - apply elem_of_cons in Hc as [->|Hc].
    + by apply foldl_insert_keeps_holds, holds_insert_self.
    + apply IH; [by apply keyed_by_ip_insert|done].
Qed.

(** X21: every record built from a snapshot, from an address or from an
    instance, is absorbed by the merged map: the map has an entry under its
    IP, and the entry has a status, a subnet and a user wherever the record
    has one. *)
Theorem flatten_absorbs_every_candidate (ps : list projectResources)
    (cs : list AddressInfo) (m : gmap string AddressInfo) (c : AddressInfo) :
  candidates ps = Some cs →
  c ∈ cs →
  flatten ps = Some m →
  ∃ r, m !! IP c = Some r ∧ absorbed c r.
Proof.
  intros Hcs Hc. unfold flatten. rewrite flatten_loop_fold, Hcs. simpl.
  intros [= <-].
  by destruct (foldl_insert_holds c cs ∅ keyed_by_ip_empty Hc) as [_ ?].
Qed.

Lemma flatten_absorbs_every_candidate_witness :
  ∃ r, ({[ "10.0.0.5" := mkAddressInfo "svc-a" "10.0.0.5" "RESERVED" "sub1" "vm1" ]}
          : gmap string AddressInfo) !! "10.0.0.5" = Some r
       ∧ absorbed (mkAddressInfo "svc-b" "10.0.0.5" "" "sub1" "vm1") r.
Proof.
  apply (flatten_absorbs_every_candidate [svc_a; svc_b]
           [mkAddressInfo "svc-a" "10.0.0.5" "RESERVED" "sub1" "";
            mkAddressInfo "svc-b" "10.0.0.5" "" "sub1" "vm1"]
           _ (mkAddressInfo "svc-b" "10.0.0.5" "" "sub1" "vm1")).
  - vm_compute. reflexivity.
  - right. left.
  - vm_compute. reflexivity.
Defined.

Lemma foldl_insert_dom cs m :
  dom (foldl insertAddressInfo m cs) = dom m ∪ list_to_set (IP <$> cs).
Proof.
  revert m. induction cs as [|c cs IH]; intros m; simpl.
  - symmetry. apply (right_id_L (∅ : gset string) (∪)).
  - rewrite IH, insertAddressInfo_dom. set_solver.
Qed.

(** X22: the first record built for an IP decides.  When the records built
    from the snapshots are [pre], then [c], then [post], and no record of
    [pre] has the IP of [c], the merged map holds under that IP a record
    with the project of [c] and with every status, subnet and user that
    [c] has. *)
Theorem flatten_first_candidate_wins (ps : list projectResources)
    (pre post : list AddressInfo) (c : AddressInfo) (m : gmap string AddressInfo) :
  candidates ps = Some (pre ++ c :: post)%list →
  IP c ∉ IP <$> pre →
  flatten ps = Some m →
  ∃ r, m !! IP c = Some r ∧ extends c r.
Proof.
  intros Hcs Hfresh. unfold flatten. rewrite flatten_loop_fold, Hcs. simpl.
  intros [= <-]. rewrite foldl_app. simpl.
  apply foldl_insert_extends. rewrite insertAddressInfo_lookup.
  replace (foldl insertAddressInfo ∅ pre !! IP c) with (@None AddressInfo); [done|].
  symmetry. apply not_elem_of_dom. rewrite foldl_insert_dom.
  rewrite dom_empty_L, (left_id_L ∅ (∪)). by rewrite elem_of_list_to_set.
Qed.

Lemma flatten_first_candidate_wins_witness :
  ∃ r, ({[ "10.0.0.5" := mkAddressInfo "svc-a" "10.0.0.5" "RESERVED" "sub1" "vm1" ]}
          : gmap string AddressInfo) !! "10.0.0.5" = Some r
       ∧ extends (mkAddressInfo "svc-a" "10.0.0.5" "RESERVED" "sub1" "") r.
Proof.
  apply (flatten_first_candidate_wins [svc_a; svc_b] []
           [mkAddressInfo "svc-b" "10.0.0.5" "" "sub1" "vm1"]
           (mkAddressInfo "svc-a" "10.0.0.5" "RESERVED" "sub1" "")).
  - vm_compute. reflexivity.
  - simpl. apply not_elem_of_nil.
  - vm_compute. reflexivity.
Defined.
